(** * Arduino bridge: command encoder, serial hook and diagnostics log

    A shallow embedding of
    - [supabase/functions/arduino-bridge/index.ts] (module [Bridge]):
      [calculateChecksum], [formatCommand] and the request handler;
    - [src/hooks/useArduinoSerial.ts] (module [Serial]): [addLog],
      [connect], [readLoop], [disconnect] and [sendBytes].

    JavaScript strings are sequences of UTF-16 code units, JavaScript
    numbers that the code uses as integers are [Z]. *)

From Stdlib Require Import ZArith NArith List Bool Lia String Ascii.
From Stdlib Require Import DecimalString DecimalZ.
Import ListNotations.

Local Open Scope Z_scope.

(** ** JavaScript strings *)

Module JS.

(** A string is the list of its UTF-16 code units. *)
Definition jsstring := list N.

(** A string literal of the source (ASCII only). *)
Definition lit (s : string) : jsstring :=
  List.map N_of_ascii (list_ascii_of_string s).

Definition str_eqb (a b : jsstring) : bool :=
  if list_eq_dec N.eq_dec a b then true else false.

(** [s.charCodeAt(i)]; [NaN] outside the string is [None]. *)
Definition charCodeAt (s : jsstring) (i : Z) : option Z :=
  if (i <? 0) then None
  else option_map Z.of_N (nth_error s (Z.to_nat i)).

(** [String.fromCharCode(...codes)]: every code is taken modulo 2^16. *)
Definition fromCharCodes (codes : list Z) : jsstring :=
  List.map (fun c => Z.to_N (c mod 65536)) codes.

(** ToString of a number that holds an integer: decimal digits with a
    leading minus sign for negative values. *)
Definition numberToString (z : Z) : jsstring :=
  lit (NilZero.string_of_int (Z.to_int z)).

(** Truthiness of an optional string: [undefined] and the empty string
    are falsy. *)
Definition truthy (o : option jsstring) : bool :=
  match o with
  | Some (_ :: _) => true
  | _ => false
  end.

(** [x || d] for an optional string [x] and a string [d]. *)
Definition orElse (o : option jsstring) (d : jsstring) : jsstring :=
  match o with
  | Some (u :: s) => u :: s
  | _ => d
  end.

(** [x === s] for an optional string [x] and a string [s], as the
    [case] labels of a [switch] compare. *)
Definition strictEq (o : option jsstring) (s : jsstring) : bool :=
  match o with
  | Some a => str_eqb a s
  | None => false
  end.

(** ToString of an optional string inside a template literal. *)
Definition templateString (o : option jsstring) : jsstring :=
  match o with
  | Some s => s
  | None => lit "undefined"
  end.

(** [String.prototype.toUpperCase] on code units below [0x100]: the
    ASCII letters and the cased letters of the Latin-1 supplement.  The
    sharp s becomes two letters, the micro sign and y with diaeresis
    leave Latin-1.  Code units from [0x100] on are kept as they are,
    which is what the built-in does for every caseless character (all
    ideographs, digits, punctuation and symbols); the cased letters of
    the other scripts are outside this model. *)
Definition upperUnit (u : N) : list N :=
  if ((97 <=? u) && (u <=? 122))%N then [(u - 32)%N]
  else if (u =? 181)%N then [924%N]
  else if (u =? 223)%N then [83%N; 83%N]
  else if (u =? 255)%N then [376%N]
  else if ((224 <=? u) && (u <=? 254) && negb (u =? 247))%N then [(u - 32)%N]
  else [u].

Definition toUpperCase (s : jsstring) : jsstring := flat_map upperUnit s.

(** Members of [Object.prototype] that an object literal inherits:
    a property read walks the prototype chain, so [obj[key]] finds
    them when [obj] has no own property [key].  All are functions
    except [__proto__], the accessor of Annex B, which yields the
    prototype object itself; an engine that removes this accessor
    answers [undefined] for it, and nothing below depends on which of
    the two happens. *)
Inductive inherited :=
| BuiltinFunction (name : jsstring)
| PrototypeObject.

Definition objectPrototypeFunctions : list string :=
  [ "constructor"; "hasOwnProperty"; "isPrototypeOf";
    "propertyIsEnumerable"; "toLocaleString"; "toString"; "valueOf";
    "__defineGetter__"; "__defineSetter__"; "__lookupGetter__";
    "__lookupSetter__" ]%string.

(** The value of [Object.prototype[key]].  The [constructor] property is
    the function [Object]; every other function is named like its key. *)
Definition objectPrototypeGet (key : jsstring) : option inherited :=
  if str_eqb key (lit "__proto__") then Some PrototypeObject
  else if str_eqb key (lit "constructor") then Some (BuiltinFunction (lit "Object"))
  else if existsb (fun n => str_eqb key (lit n)) objectPrototypeFunctions
       then Some (BuiltinFunction key)
       else None.

(** ToString of an inherited member: the source text of a built-in
    function, [[object Object]] for the prototype object. *)
Definition inheritedToString (v : inherited) : jsstring :=
  match v with
  | BuiltinFunction name => lit "function " ++ name ++ lit "() { [native code] }"
  | PrototypeObject => lit "[object Object]"
  end.

(** A value read from an object literal whose own properties are
    strings. *)
Inductive propValue :=
| Own (s : jsstring)
| Inherited (v : inherited)
| Undefined.

(** [obj[key]] for an object literal given by its own properties: the
    own property when there is one, else what the prototype has under
    that key, else [undefined]. *)
Definition getProperty (own : list (string * string)) (key : jsstring) : propValue :=
  match find (fun kv => str_eqb key (lit (fst kv))) own with
  | Some kv => Own (lit (snd kv))
  | None =>
      match objectPrototypeGet key with
      | Some v => Inherited v
      | None => Undefined
      end
  end.

(** [`${obj[key] || d}`]: functions and objects are truthy, and the
    template literal converts whatever was selected to a string. *)
Definition propOrElse (v : propValue) (d : jsstring) : jsstring :=
  match v with
  | Own (u :: s) => u :: s
  | Own [] => d
  | Inherited i => inheritedToString i
  | Undefined => d
  end.

(** [Math.max(a, b)] and [Math.min(a, b)] on integers. *)
Definition Math_max (a b : Z) : Z := if a <? b then b else a.
Definition Math_min (a b : Z) : Z := if b <? a then b else a.

(** [n.toString(16)] for a non-negative integer: lowercase digits, no
    leading zero (the single digit [0] for zero). *)
Definition hexDigit (d : N) : N :=
  if (d <? 10)%N then (48 + d)%N else (87 + d)%N.

Fixpoint hexPos (fuel : nat) (n : N) (acc : jsstring) : jsstring :=
  match fuel with
  | O => acc
  | S fuel' =>
      let acc' := hexDigit (n mod 16)%N :: acc in
      if (n / 16 =? 0)%N then acc' else hexPos fuel' (n / 16)%N acc'
  end.

Definition toStringHex (z : Z) : jsstring :=
  let n := Z.to_N z in hexPos (S (N.to_nat (N.log2 n))) n [].

(** [s.padStart(2, '0')] *)
Definition padStart2 (s : jsstring) : jsstring :=
  match s with
  | [] => [48%N; 48%N]
  | [d] => [48%N; d]
  | _ => s
  end.

(** [parts.join(sep)] *)
Fixpoint join (sep : jsstring) (parts : list jsstring) : jsstring :=
  match parts with
  | [] => []
  | [p] => p
  | p :: rest => p ++ sep ++ join sep rest
  end.

End JS.

Import JS.

(** ** The edge function [arduino-bridge] *)

Module Bridge.

(** Sound system codes for the Arduino protocol. *)
Definition SYSTEM_CODES : list (string * string) :=
  [ ("lung", "L"); ("heart", "H"); ("bowel", "B") ]%string.

(** Location codes for the Arduino protocol. *)
Definition LOCATION_CODES : list (string * string) :=
  [ ("right-upper-anterior", "RUA");
    ("right-middle-anterior", "RMA");
    ("right-lower-anterior", "RLA");
    ("left-upper-anterior", "LUA");
    ("left-lower-anterior", "LLA");
    ("right-upper-posterior", "RUP");
    ("right-middle-posterior", "RMP");
    ("right-lower-posterior", "RLP");
    ("left-upper-posterior", "LUP");
    ("left-middle-posterior", "LMP");
    ("left-lower-posterior", "LLP");
    ("aortic", "AOR");
    ("pulmonic", "PUL");
    ("erbs-point", "ERB");
    ("tricuspid", "TRI");
    ("mitral", "MIT");
    ("ruq", "RUQ");
    ("luq", "LUQ");
    ("rlq", "RLQ");
    ("llq", "LLQ");
    ("periumbilical", "PER") ]%string.

(** [interface ArduinoCommand]: optional fields are [None] when they
    are absent.  [action] is a string at run time; a request may leave
    it out. *)
Record ArduinoCommand := mkCommand {
  action : option jsstring;
  system : option jsstring;
  soundCode : option jsstring;
  location : option jsstring;
  volume : option Z
}.

(** [interface FormattedCommand] *)
Record FormattedCommand := mkFormatted {
  raw : jsstring;
  bytes : list Z;
  checksum : Z;
  description : jsstring
}.

(** [for (let i = 0; i < n; i++) body]: [n] iterations from index [i]. *)
Fixpoint forIndex {S : Type} (n : nat) (body : Z -> S -> S) (i : Z) (s : S) : S :=
  match n with
  | O => s
  | Datatypes.S n' => forIndex n' body (i + 1) (body i s)
  end.

(** [calculateChecksum]: the loop adds [data.charCodeAt(i)] for every
    index below [data.length]; [%] is the remainder of the sum. *)
Definition calculateChecksum (data : jsstring) : Z :=
  let sum :=
    forIndex (List.length data)
      (fun i sum =>
         match charCodeAt data i with
         | Some c => sum + c
         | None => sum   (* not reached: i < data.length *)
         end) 0 0 in
  Z.rem sum 256.

(** [command.volume || 5]: [undefined] and [0] are falsy. *)
Definition volumeOrDefault (v : option Z) : Z :=
  match v with
  | Some 0 => 5
  | Some n => n
  | None => 5
  end.

(** [Math.min(10, Math.max(0, v))] *)
Definition clampVolume (v : Z) : Z := Math_min 10 (Math_max 0 v).

Definition STX : Z := 2.
Definition ETX : Z := 3.

(** The double quote of the play description. *)
Definition dquote : jsstring := [34%N].

(** [formatCommand]: the [switch] on [command.action] builds [raw] and
    [description]; the frame is built after it. *)
Definition formatCommand (command : ArduinoCommand) : FormattedCommand :=
  let '(raw, description) :=
    let act := action command in
    if strictEq act (lit "play") then
      let systemCode :=
        propOrElse (getProperty SYSTEM_CODES (orElse (system command) [])) (lit "U") in
      let soundCode :=
        orElse (option_map toUpperCase (soundCode command)) (lit "UNK") in
      let locationCode :=
        propOrElse (getProperty LOCATION_CODES (orElse (location command) [])) (lit "UNK") in
      let volume := clampVolume (volumeOrDefault (volume command)) in
      (lit "P:" ++ systemCode ++ lit ":" ++ soundCode ++ lit ":" ++ locationCode
         ++ lit ":" ++ numberToString volume,
       lit "Play " ++ templateString (system command) ++ lit " sound " ++ dquote
         ++ soundCode ++ dquote ++ lit " at " ++ templateString (location command)
         ++ lit " with volume " ++ numberToString volume)
    else if strictEq act (lit "stop") then
      (lit "S", lit "Stop all playback")
    else if strictEq act (lit "volume") then
      let vol := clampVolume (volumeOrDefault (volume command)) in
      (lit "V:" ++ numberToString vol, lit "Set volume to " ++ numberToString vol)
    else if strictEq act (lit "status") then
      (lit "Q", lit "Query device status")
    else
      (lit "N", lit "No operation") in
  let checksum := calculateChecksum raw in
  let bytes :=
    forIndex (List.length raw)
      (fun i bytes =>
         match charCodeAt raw i with
         | Some c => bytes ++ [c]
         | None => bytes   (* not reached: i < raw.length *)
         end) 0 [STX] in
  let bytes := bytes ++ [ETX] in
  let bytes := bytes ++ [checksum] in
  {| raw := raw; bytes := bytes; checksum := checksum; description := description |}.

(** The request as the handler sees it: its method and what
    [await req.json()] gives, a command or a thrown value whose message
    is [None] when it is not an [Error]. *)
Inductive jsonBody :=
| Parsed (command : ArduinoCommand)
| ParseFailure (message : option jsstring).

Record Request := mkRequest {
  method : jsstring;
  json : jsonBody
}.

(** The JSON document of a response, by shape. *)
Inductive ResponseBody :=
| NoBody
| ErrorBody (error : jsstring)
| FailureBody (error details : jsstring)
| SuccessBody (command : FormattedCommand) (timestamp hex : jsstring).

Record Response := mkResponse {
  status : Z;
  body : ResponseBody
}.

(** [bytes.map(b => b.toString(16).padStart(2, '0')).join(' ')] *)
Definition hexDump (bytes : list Z) : jsstring :=
  join (lit " ") (List.map (fun b => padStart2 (toStringHex b)) bytes).

(** The handler given to [serve]; [now] is [new Date().toISOString()]
    at the time of the response.  A response without an explicit status
    has status 200. *)
Definition handler (now : jsstring) (req : Request) : Response :=
  if str_eqb (method req) (lit "OPTIONS") then
    {| status := 200; body := NoBody |}
  else
    match json req with
    | ParseFailure message =>
        {| status := 500;
           body := FailureBody (lit "Failed to process command")
                     (match message with
                      | Some m => m
                      | None => lit "Unknown error"
                      end) |}
    | Parsed command =>
        if negb (truthy (action command)) then
          {| status := 400; body := ErrorBody (lit "Missing required field: action") |}
        else if strictEq (action command) (lit "play")
                && (negb (truthy (system command))
                    || negb (truthy (soundCode command))
                    || negb (truthy (location command))) then
          {| status := 400;
             body := ErrorBody (lit "Play action requires system, soundCode, and location") |}
        else
          let formatted := formatCommand command in
          {| status := 200;
             body := SuccessBody formatted now (hexDump (bytes formatted)) |}
    end.

End Bridge.

(** ** The hook [useArduinoSerial] *)

Module Serial.

(** *** Arrays and strings used by the hook *)

(** [arr.slice(start)]: a negative [start] counts from the end. *)
Definition slice {A : Type} (start : Z) (arr : list A) : list A :=
  let len := Z.of_nat (List.length arr) in
  let k := if start <? 0 then Math_max (len + start) 0 else Math_min start len in
  skipn (Z.to_nat k) arr.

(** [arr.pop()]: the array without its last element, and that element
    ([undefined] for an empty array). *)
Definition pop {A : Type} (arr : list A) : list A * option A :=
  match rev arr with
  | [] => ([], None)
  | x :: r => (rev r, Some x)
  end.

(** The terminators of [/[\n\x03]/]. *)
Definition isTerminator (u : N) : bool := ((u =? 10) || (u =? 3))%N.

(** [s.split(/[\n\x03]/)]: the segments between terminators; a string
    without terminator, the empty one too, is its only segment. *)
Fixpoint split (s : jsstring) : list jsstring :=
  match s with
  | [] => [[]]
  | u :: rest =>
      if isTerminator u then [] :: split rest
      else match split rest with
           | seg :: segs => (u :: seg) :: segs
           | [] => [[u]]
           end
  end.

(** White space and line terminators, which [trim] removes. *)
Definition isWhiteSpace (u : N) : bool :=
  (((9 <=? u) && (u <=? 13)) || (u =? 32) || (u =? 160) || (u =? 5760)
   || ((8192 <=? u) && (u <=? 8202)) || (u =? 8232) || (u =? 8233)
   || (u =? 8239) || (u =? 8287) || (u =? 12288) || (u =? 65279))%N.

Fixpoint trimStart (s : jsstring) : jsstring :=
  match s with
  | u :: rest => if isWhiteSpace u then trimStart rest else s
  | [] => []
  end.

(** [s.trim()] *)
Definition trim (s : jsstring) : jsstring :=
  rev (trimStart (rev (trimStart s))).

(** [s.includes(sub)] *)
Fixpoint startsWith (sub s : jsstring) : bool :=
  match sub, s with
  | [], _ => true
  | a :: sub', b :: s' => (a =? b)%N && startsWith sub' s'
  | _ :: _, [] => false
  end.

Fixpoint includes (s sub : jsstring) : bool :=
  startsWith sub s ||
  match s with
  | [] => false
  | _ :: s' => includes s' sub
  end.

(** *** State of the hook *)

(** [interface SerialOptions] and its partial form. *)
Inductive Parity := ParityNone | ParityEven | ParityOdd.

Record SerialOptions := mkOptions {
  baudRate : Z;
  dataBits : option Z;
  stopBits : option Z;
  parity : option Parity
}.

Record PartialOptions := mkPartial {
  p_baudRate : option Z;
  p_dataBits : option Z;
  p_stopBits : option Z;
  p_parity : option Parity
}.

Definition DEFAULT_SERIAL_OPTIONS : SerialOptions :=
  {| baudRate := 9600; dataBits := Some 8; stopBits := Some 1;
     parity := Some ParityNone |}.

(** [{ ...DEFAULT_SERIAL_OPTIONS, ...options }] *)
Definition mergeOptions (d : SerialOptions) (o : PartialOptions) : SerialOptions :=
  {| baudRate := match p_baudRate o with Some b => b | None => baudRate d end;
     dataBits := match p_dataBits o with Some b => Some b | None => dataBits d end;
     stopBits := match p_stopBits o with Some b => Some b | None => stopBits d end;
     parity := match p_parity o with Some b => Some b | None => parity d end |}.

(** A port handed out by the browser, with whether its [readable] and
    [writable] streams are there. *)
Record SerialPort := mkPort {
  portId : nat;
  readable : bool;
  writable : bool
}.

(** The reader and the writer of a port's streams. *)
Inductive Reader := ReaderOf (port : nat).
Inductive Writer := WriterOf (port : nat).

(** [interface DeviceStatus]; a [Date] is its time value. *)
Record DeviceStatus := mkStatus {
  connected : bool;
  portName : option jsstring;
  lastResponse : option jsstring;
  lastCommandTime : option Z
}.

(** What [useState] and [useRef] hold. *)
Record Hook := mkHook {
  isSupported : bool;
  isConnected : bool;
  isConnecting : bool;
  deviceStatus : DeviceStatus;
  logs : list jsstring;
  portRef : option SerialPort;
  readerRef : option Reader;
  writerRef : option Writer
}.

Definition initialStatus : DeviceStatus :=
  {| connected := false; portName := None; lastResponse := None;
     lastCommandTime := None |}.

(** The state after the mount effect, [supported] being
    ['serial' in navigator]. *)
Definition initialHook (supported : bool) : Hook :=
  {| isSupported := supported; isConnected := false; isConnecting := false;
     deviceStatus := initialStatus; logs := [];
     portRef := None; readerRef := None; writerRef := None |}.

(** The connection state that the three flags stand for. *)
Inductive ConnectionState := Unsupported | Disconnected | Connecting | Connected.

Definition connectionState (h : Hook) : ConnectionState :=
  if negb (isSupported h) then Unsupported
  else if isConnected h then Connected
  else if isConnecting h then Connecting
  else Disconnected.

(** *** Effects *)

(** A thrown value: an [Error] with its name and message, or anything
    else. *)
Record Thrown := mkThrown {
  isError : bool;
  errorName : jsstring;
  errorMessage : jsstring
}.

(** Calls into the Web Serial and streams API. *)
Inductive SerialOp :=
| RequestPort
| OpenPort (port : nat) (options : SerialOptions)
| GetWriter (port : nat)
| GetReader (port : nat)
| CancelReader (r : Reader)
| ReleaseLock (r : Reader)
| CloseWriter (w : Writer)
| ClosePort (port : nat)
| WriteBytes (w : Writer) (data : list Z).

Inductive ToastKind := ToastError | ToastInfo | ToastSuccess.

(** What the hook does to the outside, in order. *)
Inductive Event :=
| Call (op : SerialOp)
| Toast (kind : ToastKind) (message : jsstring)
| ConsoleError (label : jsstring)
| StartReadLoop.

(** The outside: the clock, the locale, the port the user selects and
    the calls that fail, each depending on what happened before. *)
Record Env := mkEnv {
  dateAt : nat -> Z;
  toLocaleTimeString : Z -> jsstring;
  selectedPort : list Event -> SerialPort;
  failure : list Event -> SerialOp -> option Thrown
}.

Record World := mkWorld {
  hook : Hook;
  events : list Event;
  dates : nat
}.

(** A computation changes the world and returns or throws; what it did
    before throwing stays done. *)
Inductive Completion (A : Type) :=
| Return (a : A)
| Throw (e : Thrown).
Arguments Return {A} a.
Arguments Throw {A} e.

Definition M (A : Type) : Type := World -> Completion A * World.

Definition ret {A} (a : A) : M A := fun w => (Return a, w).

Definition bind {A B} (m : M A) (k : A -> M B) : M B :=
  fun w =>
    match m w with
    | (Return a, w') => k a w'
    | (Throw e, w') => (Throw e, w')
    end.

Definition throw {A} (e : Thrown) : M A := fun w => (Throw e, w).

(** [try { body } catch (error) { handler }] *)
Definition tryCatch {A} (body : M A) (handler : Thrown -> M A) : M A :=
  fun w =>
    match body w with
    | (Return a, w') => (Return a, w')
    | (Throw e, w') => handler e w'
    end.

(** [try { body } finally { cleanup }], for a [cleanup] that does not
    throw or return. *)
Definition tryFinally {A} (body : M A) (cleanup : M unit) : M A :=
  fun w =>
    match body w with
    | (c, w') =>
        match cleanup w' with
        | (Return _, w'') => (c, w'')
        | (Throw e, w'') => (Throw e, w'')
        end
    end.

Declare Scope hook_scope.
Delimit Scope hook_scope with hook.
Notation "x <- m ;; k" := (bind m (fun x => k))
  (at level 61, m at next level, right associativity) : hook_scope.
Notation "m ;; k" := (bind m (fun _ => k))
  (at level 61, right associativity) : hook_scope.
Local Open Scope hook_scope.

Definition getHook : M Hook := fun w => (Return (hook w), w).

Definition modifyHook (f : Hook -> Hook) : M unit :=
  fun w => (Return tt, {| hook := f (hook w); events := events w; dates := dates w |}).

Definition emit (e : Event) : M unit :=
  fun w => (Return tt, {| hook := hook w; events := events w ++ [e]; dates := dates w |}).

Definition toast (kind : ToastKind) (message : jsstring) : M unit :=
  emit (Toast kind message).

(** [forEach]: [for (const x of xs) body] *)
Fixpoint forEach {A} (xs : list A) (body : A -> M unit) : M unit :=
  match xs with
  | [] => ret tt
  | x :: rest => body x ;; forEach rest body
  end.

(** The state setters and the refs. *)
Definition setIsConnected (b : bool) : M unit :=
  modifyHook (fun h =>
    mkHook (isSupported h) b (isConnecting h) (deviceStatus h) (logs h)
           (portRef h) (readerRef h) (writerRef h)).

Definition setIsConnecting (b : bool) : M unit :=
  modifyHook (fun h =>
    mkHook (isSupported h) (isConnected h) b (deviceStatus h) (logs h)
           (portRef h) (readerRef h) (writerRef h)).

Definition setDeviceStatus (f : DeviceStatus -> DeviceStatus) : M unit :=
  modifyHook (fun h =>
    mkHook (isSupported h) (isConnected h) (isConnecting h) (f (deviceStatus h))
           (logs h) (portRef h) (readerRef h) (writerRef h)).

Definition setLogs (f : list jsstring -> list jsstring) : M unit :=
  modifyHook (fun h =>
    mkHook (isSupported h) (isConnected h) (isConnecting h) (deviceStatus h)
           (f (logs h)) (portRef h) (readerRef h) (writerRef h)).

Definition setPortRef (p : option SerialPort) : M unit :=
  modifyHook (fun h =>
    mkHook (isSupported h) (isConnected h) (isConnecting h) (deviceStatus h)
           (logs h) p (readerRef h) (writerRef h)).

Definition setReaderRef (r : option Reader) : M unit :=
  modifyHook (fun h =>
    mkHook (isSupported h) (isConnected h) (isConnecting h) (deviceStatus h)
           (logs h) (portRef h) r (writerRef h)).

Definition setWriterRef (x : option Writer) : M unit :=
  modifyHook (fun h =>
    mkHook (isSupported h) (isConnected h) (isConnecting h) (deviceStatus h)
           (logs h) (portRef h) (readerRef h) x).

(** [error instanceof Error ? error.message : 'Unknown error'] *)
Definition messageOf (e : Thrown) : jsstring :=
  if isError e then errorMessage e else lit "Unknown error".

Section WithEnv.

Variable env : Env.

(** [new Date()]: the next reading of the clock. *)
Definition newDate : M Z :=
  fun w => (Return (dateAt env (dates w)),
            {| hook := hook w; events := events w; dates := S (dates w) |}).

(** A call into the serial API: it is recorded, then it succeeds or
    throws as the outside decides. *)
Definition call (op : SerialOp) : M unit :=
  fun w =>
    let w' := {| hook := hook w; events := events w ++ [Call op]; dates := dates w |} in
    match failure env (events w) op with
    | Some e => (Throw e, w')
    | None => (Return tt, w')
    end.

(** [navigator.serial.requestPort()] *)
Definition requestPort : M SerialPort :=
  fun w =>
    match call RequestPort w with
    | (Return _, w') => (Return (selectedPort env (events w)), w')
    | (Throw e, w') => (Throw e, w')
    end.

(** The log line of [addLog]. *)
Definition logLine (timestamp message : jsstring) : jsstring :=
  lit "[" ++ timestamp ++ lit "] " ++ message.

(** [addLog]: [setLogs(prev => [...prev.slice(-99), line])] *)
Definition addLog (message : jsstring) : M unit :=
  now <- newDate ;;
  let timestamp := toLocaleTimeString env now in
  setLogs (fun prev => slice (-99) prev ++ [logLine timestamp message]).

Definition clearLogs : M unit := setLogs (fun _ => []).

(** [connect].  The callback reads [isSupported] and [isConnected] of
    the render that created it; the hook re-creates it whenever either
    changes, so they are read from the state here.  [readLoop()] is
    started and not awaited. *)
Definition connect (options : PartialOptions) : M bool :=
  h <- getHook ;;
  if negb (isSupported h) then
    toast ToastError (lit "WebSerial is not supported in this browser") ;;
    ret false
  else if isConnected h then
    toast ToastInfo (lit "Already connected to a device") ;;
    ret true
  else
    setIsConnecting true ;;
    tryFinally
      (tryCatch
         (port <- requestPort ;;
          let serialOptions := mergeOptions DEFAULT_SERIAL_OPTIONS options in
          call (OpenPort (portId port) serialOptions) ;;
          setPortRef (Some port) ;;
          (if writable port then
             call (GetWriter (portId port)) ;;
             setWriterRef (Some (WriterOf (portId port)))
           else ret tt) ;;
          (if readable port then
             call (GetReader (portId port)) ;;
             setReaderRef (Some (ReaderOf (portId port))) ;;
             emit StartReadLoop
           else ret tt) ;;
          setIsConnected true ;;
          setDeviceStatus (fun prev =>
            {| connected := true; portName := Some (lit "Arduino Device");
               lastResponse := lastResponse prev;
               lastCommandTime := lastCommandTime prev |}) ;;
          addLog (lit "Connected to serial device") ;;
          toast ToastSuccess (lit "Connected to Arduino") ;;
          ret true)
         (fun error =>
            emit (ConsoleError (lit "Failed to connect:")) ;;
            let message := messageOf error in
            addLog (lit "Connection failed: " ++ message) ;;
            (if includes message (lit "No port selected") then ret tt
             else toast ToastError (lit "Failed to connect: " ++ message)) ;;
            ret false))
      (setIsConnecting false).

(** The arrows of the log lines: U+2190 and U+2192. *)
Definition leftArrow : jsstring := [8592%N].
Definition rightArrow : jsstring := [8594%N].

(** One turn of the [while] loop of [readLoop] after a read that gave
    data: [decoded] is what [decoder.decode(value, { stream: true })]
    returned, [buffer] the local variable; the result is its new
    value. *)
Definition processChunk (buffer decoded : jsstring) : M jsstring :=
  let buffer := buffer ++ decoded in
  let '(lines, last) := pop (split buffer) in
  let buffer := orElse last [] in
  forEach lines (fun line =>
    if truthy (Some (trim line)) then
      addLog (leftArrow ++ lit " " ++ trim line) ;;
      setDeviceStatus (fun prev =>
        {| connected := connected prev; portName := portName prev;
           lastResponse := Some (trim line);
           lastCommandTime := lastCommandTime prev |})
    else ret tt) ;;
  ret buffer.

(** What [await reader.read()] gives. *)
Inductive ReadResult :=
| Chunk (decoded : jsstring)
| Done
| ReadFails (e : Thrown).

(** The [while (true)] loop over the reads that the stream delivers;
    after the last of them the next read stays pending. *)
Fixpoint readChunks (reads : list ReadResult) (buffer : jsstring) : M jsstring :=
  match reads with
  | [] => ret buffer
  | Done :: _ => ret buffer
  | ReadFails e :: _ => throw e
  | Chunk decoded :: rest =>
      buffer' <- processChunk buffer decoded ;;
      readChunks rest buffer'
  end.

(** [readLoop] *)
Definition readLoop (reads : list ReadResult) : M unit :=
  h <- getHook ;;
  match readerRef h with
  | None => ret tt
  | Some _ =>
      tryCatch
        (readChunks reads [] ;; ret tt)
        (fun error =>
           if isError error && negb (str_eqb (errorName error) (lit "NetworkError")) then
             emit (ConsoleError (lit "Read error:")) ;;
             addLog (lit "Read error: " ++ errorMessage error)
           else ret tt)
  end.

(** [disconnect]: one [try] block around the whole teardown. *)
Definition disconnect : M unit :=
  tryCatch
    (h <- getHook ;;
     match readerRef h with
     | Some reader =>
         call (CancelReader reader) ;;
         call (ReleaseLock reader) ;;
         setReaderRef None
     | None => ret tt
     end ;;
     h <- getHook ;;
     match writerRef h with
     | Some writer =>
         call (CloseWriter writer) ;;
         setWriterRef None
     | None => ret tt
     end ;;
     h <- getHook ;;
     match portRef h with
     | Some port =>
         call (ClosePort (portId port)) ;;
         setPortRef None
     | None => ret tt
     end ;;
     setIsConnected false ;;
     setDeviceStatus (fun _ => initialStatus) ;;
     addLog (lit "Disconnected from serial device") ;;
     toast ToastSuccess (lit "Disconnected from Arduino"))
    (fun error =>
       emit (ConsoleError (lit "Disconnect error:")) ;;
       addLog (lit "Disconnect error: " ++ messageOf error)).

(** [sendBytes]; [new Uint8Array(bytes)] keeps the low eight bits. *)
Definition sendBytes (bytes : list Z) : M bool :=
  h <- getHook ;;
  match writerRef h, isConnected h with
  | Some writer, true =>
      tryCatch
        (let data := List.map (fun b => b mod 256) bytes in
         call (WriteBytes writer data) ;;
         addLog (rightArrow ++ lit " " ++ Bridge.hexDump bytes) ;;
         now <- newDate ;;
         setDeviceStatus (fun prev =>
           {| connected := connected prev; portName := portName prev;
              lastResponse := lastResponse prev;
              lastCommandTime := Some now |}) ;;
         ret true)
        (fun error =>
           emit (ConsoleError (lit "Send error:")) ;;
           addLog (lit "Send error: " ++ messageOf error) ;;
           ret false)
  | _, _ =>
      addLog (lit "Cannot send: not connected") ;;
      ret false
  end.

End WithEnv.

End Serial.

(** ** Notions used to state the properties *)

Import Bridge.

(** The code units of a string as numbers, and back. *)
Definition codeUnits (s : jsstring) : list Z := List.map Z.of_N s.
Definition decodeUnits (codes : list Z) : jsstring := List.map Z.to_N codes.

(** The sum of the code units of a string. *)
Definition sumUnits (s : jsstring) : Z := fold_right Z.add 0 (codeUnits s).

(** [l[from..to)] *)
Definition sliceRange {A : Type} (from to : nat) (l : list A) : list A :=
  firstn (to - from) (skipn from l).

(** A string whose code units all lie below [bound]. *)
Definition below (bound : N) (s : jsstring) : Prop :=
  Forall (fun u => (u < bound)%N) s.

(** A value that fits an unsigned byte. *)
Definition isByte (b : Z) : Prop := 0 <= b <= 255.

(** The last [n] elements of a list. *)
Definition lastn {A : Type} (n : nat) (l : list A) : list A :=
  skipn (List.length l - n) l.

(** Commands by action. *)
Definition playCommand (system soundCode location : option jsstring)
    (volume : option Z) : ArduinoCommand :=
  mkCommand (Some (lit "play")) system soundCode location volume.

Definition volumeCommand (system soundCode location : option jsstring)
    (volume : option Z) : ArduinoCommand :=
  mkCommand (Some (lit "volume")) system soundCode location volume.

(** The worked example of the play command. *)
Definition examplePlay : ArduinoCommand :=
  playCommand (Some (lit "lung")) (Some (lit "lung_normal"))
    (Some (lit "right-upper-anterior")) (Some 12).

(** A play command whose sound code is one ideograph, U+4E2D. *)
Definition ideographPlay : ArduinoCommand :=
  playCommand (Some (lit "lung")) (Some [20013%N]) (Some (lit "aortic")) (Some 5).

(** A play command for the system named [constructor]. *)
Definition constructorPlay : ArduinoCommand :=
  playCommand (Some (lit "constructor")) (Some (lit "lung_normal"))
    (Some (lit "right-upper-anterior")) (Some 7).

(** A play command with an empty sound code, and one with volume 0. *)
Definition emptySoundPlay : ArduinoCommand :=
  playCommand (Some (lit "lung")) (Some []) (Some (lit "right-upper-anterior"))
    (Some 7).

Definition zeroVolumePlay : ArduinoCommand :=
  playCommand (Some (lit "lung")) (Some (lit "lung_normal"))
    (Some (lit "right-upper-anterior")) (Some 0).

(** A play command with an empty system, and a command with an empty
    action. *)
Definition emptySystemPlay : ArduinoCommand :=
  playCommand (Some []) (Some (lit "lung_normal")) (Some (lit "aortic")) (Some 5).

Definition emptyAction : ArduinoCommand :=
  mkCommand (Some []) None None None None.

(** A request that carries a command. *)
Definition post (command : ArduinoCommand) : Request :=
  {| method := lit "POST"; json := Parsed command |}.

(** *** The raw string of a play command, in words *)

(** L for lung, H for heart, B for bowel, U for anything else. *)
Definition systemLetter (system : option jsstring) : jsstring :=
  match system with
  | Some s =>
      if str_eqb s (lit "lung") then lit "L"
      else if str_eqb s (lit "heart") then lit "H"
      else if str_eqb s (lit "bowel") then lit "B"
      else lit "U"
  | None => lit "U"
  end.

(** The entry of the location table, UNK for an unmapped location. *)
Definition locationLetters (location : option jsstring) : jsstring :=
  match location with
  | Some l =>
      match find (fun kv => str_eqb l (lit (fst kv))) LOCATION_CODES with
      | Some kv => lit (snd kv)
      | None => lit "UNK"
      end
  | None => lit "UNK"
  end.

(** The raw string when the sound code is uppercased, UNK only when it
    is missing, and the volume is clamped as it was given. *)
Definition statedPlayRaw (system soundCode location : option jsstring)
    (volume : Z) : jsstring :=
  lit "P:" ++ systemLetter system ++ lit ":"
    ++ match soundCode with
       | Some s => toUpperCase s
       | None => lit "UNK"
       end
    ++ lit ":" ++ locationLetters location ++ lit ":"
    ++ numberToString (Z.min 10 (Z.max 0 volume)).

(** A field that is missing or empty. *)
Definition missingOrEmpty (o : option jsstring) : bool :=
  match o with
  | None => true
  | Some [] => true
  | Some (_ :: _) => false
  end.

(** The raw string when an empty sound code counts as missing and a
    missing or zero volume counts as 5. *)
Definition amendedPlayRaw (system soundCode location : option jsstring)
    (volume : option Z) : jsstring :=
  lit "P:" ++ systemLetter system ++ lit ":"
    ++ (if missingOrEmpty soundCode then lit "UNK"
        else match soundCode with
             | Some s => toUpperCase s
             | None => []
             end)
    ++ lit ":" ++ locationLetters location ++ lit ":"
    ++ numberToString
         (Z.min 10 (Z.max 0 (match volume with
                             | None => 5
                             | Some v => if v =? 0 then 5 else v
                             end))).

(** Keys that an object literal answers from [Object.prototype]. *)
Definition inheritedKey (key : option jsstring) : bool :=
  match key with
  | Some k =>
      existsb (fun n => str_eqb k (lit n))
        ("__proto__"%string :: objectPrototypeFunctions)
  | None => false
  end.

(** *** The responses of the handler, in words *)

Definition missingAction : Response :=
  {| status := 400; body := ErrorBody (lit "Missing required field: action") |}.

Definition playIncomplete : Response :=
  {| status := 400;
     body := ErrorBody (lit "Play action requires system, soundCode, and location") |}.

Definition formatted (now : jsstring) (command : ArduinoCommand) : Response :=
  {| status := 200;
     body := SuccessBody (formatCommand command) now
               (hexDump (bytes (formatCommand command))) |}.

Definition isNone {A : Type} (o : option A) : bool :=
  match o with
  | None => true
  | Some _ => false
  end.

(** The response when only fields that are not there count as missing. *)
Definition statedResponse (now : jsstring) (command : ArduinoCommand) : Response :=
  if isNone (action command) then missingAction
  else if strictEq (action command) (lit "play")
          && (isNone (system command) || isNone (soundCode command)
              || isNone (location command))
       then playIncomplete
       else formatted now command.

(** The response when empty fields count as missing too. *)
Definition amendedResponse (now : jsstring) (command : ArduinoCommand) : Response :=
  if missingOrEmpty (action command) then missingAction
  else if strictEq (action command) (lit "play")
          && (missingOrEmpty (system command) || missingOrEmpty (soundCode command)
              || missingOrEmpty (location command))
       then playIncomplete
       else formatted now command.

(** A lowercase hexadecimal digit, its value, and the value of a string
    of them. *)
Definition hexDigitValue (u : N) : option N :=
  if ((48 <=? u) && (u <=? 57))%N then Some (u - 48)%N
  else if ((97 <=? u) && (u <=? 102))%N then Some (u - 87)%N
  else None.

Fixpoint hexValueFrom (acc : N) (s : jsstring) : option N :=
  match s with
  | [] => Some acc
  | u :: rest =>
      match hexDigitValue u with
      | Some d => hexValueFrom (16 * acc + d)%N rest
      | None => None
      end
  end.

Definition hexValue (s : jsstring) : option N := hexValueFrom 0%N s.

(** Splitting on single spaces, the inverse of [join (lit " ")]. *)
Fixpoint splitSpaces (s : jsstring) : list jsstring :=
  match s with
  | [] => [[]]
  | u :: rest =>
      if (u =? 32)%N then [] :: splitSpaces rest
      else match splitSpaces rest with
           | seg :: segs => (u :: seg) :: segs
           | [] => [[u]]
           end
  end.

(** The number that a string of lowercase hexadecimal digits writes. *)
Definition hexNumber (s : jsstring) : option Z := option_map Z.of_N (hexValue s).

(** A string without a space. *)
Definition noSpace (s : jsstring) : Prop := Forall (fun u => u <> 32%N) s.

(** The time stamp of the example responses. *)
Definition exampleTimestamp : jsstring := lit "2026-01-01T00:00:00.000Z".

(** *** The read loop, the teardown and the log, in words *)

Import Serial.

(** The complete messages among the segments of a buffer: every segment
    but the last, trimmed, the empty ones dropped. *)
Definition completeMessages (segments : list jsstring) : list jsstring :=
  filter (fun m => match m with [] => false | _ :: _ => true end)
    (List.map trim (removelast segments)).

(** The last segment. *)
Definition carryOver (segments : list jsstring) : jsstring := last segments [].

(** The log lines of [messages] when the first of them reads the clock
    for the [start]-th time. *)
Fixpoint stampedLines (env : Env) (start : nat) (messages : list jsstring)
    : list jsstring :=
  match messages with
  | [] => []
  | m :: rest =>
      logLine (toLocaleTimeString env (dateAt env start)) m
        :: stampedLines env (S start) rest
  end.

(** The text logged for a received message. *)
Definition received (message : jsstring) : jsstring :=
  leftArrow ++ lit " " ++ message.

(** The log after new lines went in: untouched when there are none,
    else the last hundred of all lines. *)
Definition logsAfter (prev lines : list jsstring) : list jsstring :=
  match lines with
  | [] => prev
  | _ :: _ => lastn 100 (prev ++ lines)
  end.

(** The last element of a list, if any. *)
Definition lastOption {A : Type} (l : list A) : option A :=
  match rev l with
  | [] => None
  | x :: _ => Some x
  end.

(** The calls of only the [Call] events. *)
Definition callsOf (evs : list Event) : list SerialOp :=
  flat_map (fun e => match e with Call op => [op] | _ => [] end) evs.

(** The steps of the teardown for the handles that are held, in the
    order of [disconnect]. *)
Definition teardownCalls (h : Hook) : list SerialOp :=
  match readerRef h with
  | Some r => [CancelReader r; ReleaseLock r]
  | None => []
  end ++
  match writerRef h with
  | Some x => [CloseWriter x]
  | None => []
  end ++
  match portRef h with
  | Some p => [ClosePort (portId p)]
  | None => []
  end.

(** Calls made one after the other until one fails: the calls made and
    what the failing one threw. *)
Fixpoint callsUntilFailure (env : Env) (evs : list Event) (ops : list SerialOp)
    : list SerialOp * option Thrown :=
  match ops with
  | [] => ([], None)
  | op :: rest =>
      match failure env evs op with
      | Some e => ([op], Some e)
      | None =>
          let '(made, res) := callsUntilFailure env (evs ++ [Call op]) rest in
          (op :: made, res)
      end
  end.

(** The world after the complete [messages] of a chunk were handled:
    each is logged as received, the last one is the last response, the
    clock was read once per message; nothing else changes. *)
Definition afterMessages (env : Env) (messages : list jsstring) (w : World) : World :=
  let h := hook w in
  let d := deviceStatus h in
  {| hook :=
       {| isSupported := isSupported h;
          isConnected := isConnected h;
          isConnecting := isConnecting h;
          deviceStatus :=
            {| connected := connected d;
               portName := portName d;
               lastResponse :=
                 match lastOption messages with
                 | Some m => Some m
                 | None => lastResponse d
                 end;
               lastCommandTime := lastCommandTime d |};
          logs := logsAfter (logs h)
                    (stampedLines env (dates w) (List.map received messages));
          portRef := portRef h;
          readerRef := readerRef h;
          writerRef := writerRef h |};
     events := events w;
     dates := (List.length messages + dates w)%nat |}.

(** The hook after a teardown in which no step failed. *)
Definition tornDown (env : Env) (w : World) : Hook :=
  let h := hook w in
  {| isSupported := isSupported h;
     isConnected := false;
     isConnecting := isConnecting h;
     deviceStatus := initialStatus;
     logs := logsAfter (logs h)
               (stampedLines env (dates w) [lit "Disconnected from serial device"]);
     portRef := None;
     readerRef := None;
     writerRef := None |}.

(** What a user of the hook can do to it, and the world after. *)
Inductive Operation :=
| DoConnect (options : PartialOptions)
| DoDisconnect
| DoReadLoop (reads : list ReadResult)
| DoSendBytes (data : list Z)
| DoAddLog (message : jsstring)
| DoClearLogs.

Definition run (env : Env) (op : Operation) (w : World) : World :=
  match op with
  | DoConnect options => snd (connect env options w)
  | DoDisconnect => snd (disconnect env w)
  | DoReadLoop reads => snd (readLoop env reads w)
  | DoSendBytes data => snd (sendBytes env data w)
  | DoAddLog message => snd (addLog env message w)
  | DoClearLogs => snd (clearLogs w)
  end.

Definition runAll (env : Env) (ops : list Operation) (w : World) : World :=
  fold_left (fun w op => run env op w) ops w.

(** The log holds at most a hundred lines. *)
Definition bounded (w : World) : Prop := (List.length (logs (hook w)) <= 100)%nat.

(** A computation that keeps the log within its bound. *)
Definition keepsBound {A : Type} (m : M A) : Prop :=
  forall w, bounded w -> bounded (snd (m w)).

(** An outside where every call succeeds, the clock counts and the time
    of day prints as a number. *)
Definition quietEnv : Env :=
  {| dateAt := fun n => Z.of_nat n;
     toLocaleTimeString := numberToString;
     selectedPort := fun _ => {| portId := 0; readable := true; writable := true |};
     failure := fun _ _ => None |}.

(** The same outside, except that cancelling a reader fails. *)
Definition cancelFails : Env :=
  {| dateAt := fun n => Z.of_nat n;
     toLocaleTimeString := numberToString;
     selectedPort := fun _ => {| portId := 0; readable := true; writable := true |};
     failure := fun _ op =>
       match op with
       | CancelReader _ =>
           Some {| isError := true; errorName := lit "TypeError";
                   errorMessage := lit "stream is locked" |}
       | _ => None
       end |}.

Definition defaultOptions : PartialOptions :=
  {| p_baudRate := None; p_dataBits := None; p_stopBits := None; p_parity := None |}.

(** The hook right after mounting in a browser with Web Serial. *)
Definition freshWorld : World :=
  {| hook := initialHook true; events := []; dates := 0 |}.

(** The hook after a successful [connect]. *)
Definition connectedWorld : World := snd (connect quietEnv defaultOptions freshWorld).

(** The hook while a first [connect] awaits the port: [isConnecting] is
    set, nothing else happened yet. *)
Definition connectingWorld : World := snd (setIsConnecting true freshWorld).

(** The chunk of the reassembly example: A, newline, B, ETX, C. *)
Definition exampleChunk : jsstring := [65; 10; 66; 3; 67]%N.

(** The reads of the two-chunk example: OK:PLAYING:LU, then NG and a
    newline. *)
Definition exampleReads : list ReadResult :=
  [Chunk (lit "OK:PLAYING:LU"); Chunk (lit "NG" ++ [10%N])].

(** The texts [0], [1], ... of [n] log insertions. *)
Definition numberedMessages (n : nat) : list jsstring :=
  List.map (fun i => numberToString (Z.of_nat i)) (seq 0 n).

(** ** The commands of the hook *)

(** What the function client hands back to [sendCommand]. *)
Module Client.

(** [interface ArduinoResponse] *)
Record ArduinoResponse := mkResponse {
  success : bool;
  command : FormattedCommand;
  timestamp : jsstring;
  hex : jsstring
}.

(** [{ data, error }] of [supabase.functions.invoke]: [data] is [null]
    or the response, [error] is [null] or carries a message. *)
Record InvokeResult := mkResult {
  data : option ArduinoResponse;
  error : option jsstring
}.

End Client.

Section Commands.

Local Open Scope hook_scope.

Variable env : Env.

(** [supabase.functions.invoke('arduino-bridge', { body: command })] *)
Variable invoke : ArduinoCommand -> Client.InvokeResult.

(** [new Error(message)] *)
Definition newError (message : jsstring) : Thrown :=
  {| isError := true; errorName := lit "Error"; errorMessage := message |}.

(** [sendCommand].  As in [connect], [isConnected] is read from the
    state. *)
Definition sendCommand (command : ArduinoCommand) : M bool :=
  tryCatch
    (addLog env (lit "Formatting command: " ++ templateString (action command)) ;;
     let reply := invoke command in
     match Client.error reply with
     | Some message => throw (newError message)
     | None =>
         match Client.data reply with
         | Some data =>
             if Client.success data then
               addLog env (lit "Command: " ++ description (Client.command data)) ;;
               h <- getHook ;;
               (if isConnected h then
                  sent <- sendBytes env (bytes (Client.command data)) ;;
                  if sent then
                    toast ToastSuccess (description (Client.command data))
                  else throw (newError (lit "Failed to send to device"))
                else
                  addLog env (lit "[Simulated] Would send: " ++ Client.hex data) ;;
                  toast ToastInfo
                    (lit "Command ready: " ++ description (Client.command data))) ;;
               ret true
             else throw (newError (lit "Failed to format command"))
         | None => throw (newError (lit "Failed to format command"))
         end
     end)
    (fun error =>
       emit (ConsoleError (lit "Command error:")) ;;
       let message := messageOf error in
       addLog env (lit "Command error: " ++ message) ;;
       toast ToastError (lit "Command failed: " ++ message) ;;
       ret false).

(** [playSound]: the default 5 stands in for a volume that is not
    given. *)
Definition playSound (system soundCode location : jsstring) (volume : option Z)
    : M bool :=
  let volume := match volume with Some v => v | None => 5 end in
  sendCommand
    {| action := Some (lit "play"); system := Some system;
       soundCode := Some soundCode; location := Some location;
       volume := Some volume |}.

Definition stopSound : M bool :=
  sendCommand
    {| action := Some (lit "stop"); system := None; soundCode := None;
       location := None; volume := None |}.

Definition setVolume (volume : Z) : M bool :=
  sendCommand
    {| action := Some (lit "volume"); system := None; soundCode := None;
       location := None; volume := Some volume |}.

Definition queryStatus : M bool :=
  sendCommand
    {| action := Some (lit "status"); system := None; soundCode := None;
       location := None; volume := None |}.

End Commands.

(** What the function client makes of a response of the function: the
    body as [data] for a status from 200 to 299, else an error with the
    client's message for a status outside that range. *)
Definition nonOkMessage : jsstring :=
  lit "Edge Function returned a non-2xx status code".

Definition replyOf (r : Response) : Client.InvokeResult :=
  if (200 <=? status r) && (status r <? 300) then
    match body r with
    | SuccessBody f t h =>
        {| Client.data := Some {| Client.success := true; Client.command := f;
                                  Client.timestamp := t; Client.hex := h |};
           Client.error := None |}
    | _ => {| Client.data := None; Client.error := None |}
    end
  else {| Client.data := None; Client.error := Some nonOkMessage |}.

(** The client talking to [handler] itself; [now] is the time stamp the
    handler puts into its answer. *)
Definition invokeBridge (now : jsstring) (command : ArduinoCommand)
    : Client.InvokeResult :=
  replyOf (handler now (post command)).

(** A reply that [sendCommand] goes on with: no error, and data that
    says success. *)
Definition accepted (reply : Client.InvokeResult) : bool :=
  match Client.error reply, Client.data reply with
  | None, Some d => Client.success d
  | _, _ => false
  end.

(** The message of the error that [sendCommand] throws for a reply it
    does not accept. *)
Definition rejection (reply : Client.InvokeResult) : jsstring :=
  match Client.error reply with
  | Some message => message
  | None => lit "Failed to format command"
  end.

(** Everything a page can do with the hook. *)
Inductive Step :=
| HookOp (op : Operation)
| SendCommand (command : ArduinoCommand)
| PlaySound (system soundCode location : jsstring) (volume : option Z)
| StopSound
| SetVolume (volume : Z)
| QueryStatus.

Definition step (env : Env) (invoke : ArduinoCommand -> Client.InvokeResult)
    (s : Step) (w : World) : World :=
  match s with
  | HookOp op => run env op w
  | SendCommand c => snd (sendCommand env invoke c w)
  | PlaySound sys sound loc vol => snd (playSound env invoke sys sound loc vol w)
  | StopSound => snd (stopSound env invoke w)
  | SetVolume v => snd (setVolume env invoke v w)
  | QueryStatus => snd (queryStatus env invoke w)
  end.

Definition steps (env : Env) (invoke : ArduinoCommand -> Client.InvokeResult)
    (l : list Step) (w : World) : World :=
  fold_left (fun w s => step env invoke s w) l w.

(** A computation that keeps a property of the hook. *)
Definition keeps (P : Hook -> Prop) {A : Type} (m : M A) : Prop :=
  forall w, P (hook w) -> P (hook (snd (m w))).

(** What the flags, the status and the handles of the hook have in
    common between two operations. *)
Definition consistent (h : Hook) : Prop :=
  isConnecting h = false
  /\ connected (deviceStatus h) = isConnected h
  /\ portName (deviceStatus h)
     = (if isConnected h then Some (lit "Arduino Device") else None)
  /\ (isConnected h = true -> portRef h <> None)
  /\ (readerRef h <> None -> portRef h <> None)
  /\ (writerRef h <> None -> portRef h <> None).

(** The part of the hook that [consistent] looks at. *)
Definition connFields (h : Hook) :=
  (isSupported h, isConnected h, isConnecting h,
   connected (deviceStatus h), portName (deviceStatus h),
   portRef h, readerRef h, writerRef h).

(** The world before the first operation. *)
Definition initialWorld (supported : bool) : World :=
  {| hook := initialHook supported; events := []; dates := 0 |}.

(** An outside like [quietEnv], except that acquiring the reader
    fails. *)
Definition readerFails : Env :=
  {| dateAt := fun n => Z.of_nat n;
     toLocaleTimeString := numberToString;
     selectedPort := fun _ => {| portId := 0; readable := true; writable := true |};
     failure := fun _ op =>
       match op with
       | GetReader _ =>
           Some {| isError := true; errorName := lit "TypeError";
                   errorMessage := lit "stream is locked" |}
       | _ => None
       end |}.

(** An outside like [quietEnv], except that the user closes the port
    chooser without a choice. *)
Definition userCancels : Env :=
  {| dateAt := fun n => Z.of_nat n;
     toLocaleTimeString := numberToString;
     selectedPort := fun _ => {| portId := 0; readable := true; writable := true |};
     failure := fun _ op =>
       match op with
       | RequestPort =>
           Some {| isError := true; errorName := lit "NotFoundError";
                   errorMessage := lit "No port selected by the user." |}
       | _ => None
       end |}.

(** A string without newline and 0x03. *)
Definition noTerminator (s : jsstring) : Prop :=
  Forall (fun u => isTerminator u = false) s.

(** A string that [trim] leaves as it is and that is not empty. *)
Definition trimmed (s : jsstring) : Prop :=
  s <> []
  /\ (forall u r, s = u :: r -> isWhiteSpace u = false)
  /\ (forall u r, rev s = u :: r -> isWhiteSpace u = false).

(** The decoded texts of the data reads of a stream. *)
Definition chunksOf (texts : list jsstring) : list ReadResult :=
  List.map Chunk texts.

(** The bytes that [new Uint8Array(bytes)] holds. *)
Definition transmitted (frame : list Z) : list Z :=
  List.map (fun b => b mod 256) frame.

(** An outside in which no call fails and the user selects [port]. *)
Definition calm (env : Env) : Prop :=
  forall evs op, failure env evs op = None.

(** A hook that holds no handle and is not connected. *)
Definition idle (h : Hook) : Prop :=
  isConnected h = false /\ portRef h = None /\ readerRef h = None
  /\ writerRef h = None.

(** ** The command encoder *)

Ltac split_raw :=
  unfold formatCommand;
  match goal with
  | |- context [let '(_, _) := ?p in _] =>
      let rw := fresh "rw" in let ds := fresh "ds" in destruct p as [rw ds]
  end;
  cbn [raw bytes checksum description].

Section Loops.

(** The index loops of the encoder visit the code units in order. *)

Lemma charCodeAt_middle (pre rest : jsstring) (u : N) :
  charCodeAt (pre ++ u :: rest) (Z.of_nat (List.length pre)) = Some (Z.of_N u).
Proof.
  unfold charCodeAt.
  destruct (Z.of_nat (List.length pre) <? 0) eqn:E; [apply Z.ltb_lt in E; lia|].
  rewrite Nat2Z.id, nth_error_app2, Nat.sub_diag by lia. reflexivity.
Qed.

Lemma forIndex_units {S : Type} (step : S -> Z -> S) (rest : jsstring) :
  forall (pre : jsstring) (acc : S),
    forIndex (List.length rest)
      (fun i s => match charCodeAt (pre ++ rest) i with
                  | Some c => step s c
                  | None => s
                  end)
      (Z.of_nat (List.length pre)) acc
    = fold_left step (codeUnits rest) acc.
Proof.
  induction rest as [|u rest IH]; intros pre acc; [reflexivity|].
  cbn [List.length forIndex codeUnits List.map fold_left].
  rewrite charCodeAt_middle.
  replace (pre ++ u :: rest) with ((pre ++ [u]) ++ rest)
    by (rewrite <- app_assoc; reflexivity).
  replace (Z.of_nat (List.length pre) + 1)
    with (Z.of_nat (List.length (pre ++ [u])))
    by (rewrite length_app; cbn; lia).
  apply IH.
Qed.

Lemma fold_left_add (l : list Z) :
  forall acc, fold_left Z.add l acc = acc + fold_right Z.add 0 l.
Proof.
  induction l as [|x l IH]; intros acc; cbn; [lia|]. rewrite IH. lia.
Qed.

Lemma fold_left_push (l : list Z) :
  forall acc, fold_left (fun b c => b ++ [c]) l acc = acc ++ l.
Proof.
  induction l as [|x l IH]; intros acc; cbn; [now rewrite app_nil_r|].
  rewrite IH, <- app_assoc. reflexivity.
Qed.

Lemma sumUnits_nonneg (s : jsstring) : 0 <= sumUnits s.
Proof.
  unfold sumUnits, codeUnits. induction s as [|u s IH]; cbn; lia.
Qed.

Lemma calculateChecksum_sum (data : jsstring) :
  calculateChecksum data = sumUnits data mod 256.
Proof.
  unfold calculateChecksum.
  pose proof (forIndex_units Z.add data [] 0) as H.
  cbn [app List.length Z.of_nat] in H. rewrite H, fold_left_add.
  rewrite Z.add_0_l. fold (sumUnits data).
  apply Z.rem_mod_nonneg; [apply sumUnits_nonneg | lia].
Qed.

Lemma calculateChecksum_byte (data : jsstring) : isByte (calculateChecksum data).
Proof.
  rewrite calculateChecksum_sum. unfold isByte.
  pose proof (Z.mod_pos_bound (sumUnits data) 256). lia.
Qed.

Lemma formatCommand_frame (c : ArduinoCommand) :
  bytes (formatCommand c)
  = [STX] ++ codeUnits (raw (formatCommand c)) ++ [ETX; checksum (formatCommand c)].
Proof.
  split_raw.
  pose proof (forIndex_units (fun b c => b ++ [c]) rw [] [STX]) as H.
  cbn [app List.length Z.of_nat] in H. rewrite H, fold_left_push.
  rewrite <- !app_assoc. reflexivity.
Qed.

Lemma formatCommand_checksum (c : ArduinoCommand) :
  checksum (formatCommand c) = calculateChecksum (raw (formatCommand c)).
Proof. split_raw. reflexivity. Qed.

Lemma decodeUnits_codeUnits (s : jsstring) : decodeUnits (codeUnits s) = s.
Proof.
  unfold decodeUnits, codeUnits. rewrite map_map.
  induction s as [|u s IH]; cbn [List.map]; [reflexivity|]. now rewrite N2Z.id, IH.
Qed.

End Loops.

Section Frame.

Lemma Math_max_spec (a b : Z) : Math_max a b = Z.max a b.
Proof. unfold Math_max. destruct (Z.ltb_spec a b); lia. Qed.

Lemma Math_min_spec (a b : Z) : Math_min a b = Z.min a b.
Proof. unfold Math_min. destruct (Z.ltb_spec b a); lia. Qed.

Lemma clampVolume_min_max (v : Z) : clampVolume v = Z.min 10 (Z.max 0 v).
Proof. unfold clampVolume. now rewrite Math_max_spec, Math_min_spec. Qed.

Lemma raw_volume (sys snd loc : option jsstring) (vol : option Z) :
  raw (formatCommand (volumeCommand sys snd loc vol))
  = lit "V:" ++ numberToString (clampVolume (volumeOrDefault vol)).
Proof. reflexivity. Qed.

Lemma raw_play (sys snd loc : option jsstring) (vol : option Z) :
  raw (formatCommand (playCommand sys snd loc vol))
  = lit "P:"
    ++ propOrElse (getProperty SYSTEM_CODES (orElse sys [])) (lit "U") ++ lit ":"
    ++ orElse (option_map toUpperCase snd) (lit "UNK") ++ lit ":"
    ++ propOrElse (getProperty LOCATION_CODES (orElse loc [])) (lit "UNK") ++ lit ":"
    ++ numberToString (clampVolume (volumeOrDefault vol)).
Proof. reflexivity. Qed.

Lemma framed_positions {A : Type} (a x y : A) (m : list A) :
  let l := [a] ++ m ++ [x; y] in
  nth_error l 0 = Some a
  /\ nth_error l (List.length l - 2) = Some x
  /\ nth_error l (List.length l - 1) = Some y
  /\ sliceRange 1 (List.length l - 2) l = m.
Proof.
  intros l. subst l. cbn [app].
  assert (L : List.length (a :: m ++ [x; y]) = (List.length m + 3)%nat).
  { cbn [List.length]. rewrite length_app. cbn [List.length]. lia. }
  rewrite L. change (a :: m ++ [x; y]) with ((a :: m) ++ [x; y]).
  repeat split.
  - rewrite nth_error_app2; cbn [List.length]; [|lia].
    now replace (List.length m + 3 - 2 - S (List.length m))%nat with 0%nat by lia.
  - rewrite nth_error_app2; cbn [List.length]; [|lia].
    now replace (List.length m + 3 - 1 - S (List.length m))%nat with 1%nat by lia.
  - unfold sliceRange. cbn [app skipn].
    replace (List.length m + 3 - 2 - 1)%nat with (List.length m + 0)%nat by lia.
    rewrite firstn_app_2. cbn [firstn]. apply app_nil_r.
Qed.

(** C1.  For every command the encoder's bytes are STX, the code units
    of raw, ETX and the checksum, the checksum being the sum of the code
    units of raw modulo 256.  Said by position: the first byte is 0x02,
    the last but one is 0x03, the last is the checksum, and the bytes in
    between decode back to raw. *)
Theorem frame_layout (c : ArduinoCommand) :
  let f := formatCommand c in
  let n := List.length (bytes f) in
  bytes f = [2] ++ codeUnits (raw f) ++ [3; checksum f]
  /\ checksum f = sumUnits (raw f) mod 256
  /\ nth_error (bytes f) 0 = Some 2
  /\ nth_error (bytes f) (n - 2) = Some 3
  /\ nth_error (bytes f) (n - 1) = Some (checksum f)
  /\ decodeUnits (sliceRange 1 (n - 2) (bytes f)) = raw f.
Proof.
  intros f n. subst n.
  pose proof (formatCommand_frame c) as Hb. fold f in Hb.
  change [STX] with [2] in Hb. change ETX with 3 in Hb.
  destruct (framed_positions 2 3 (checksum f) (codeUnits (raw f)))
    as (H0 & H1 & H2 & H3).
  rewrite <- Hb in H0, H1, H2, H3.
  repeat split; try assumption.
  - subst f. now rewrite formatCommand_checksum, calculateChecksum_sum.
  - rewrite H3. apply decodeUnits_codeUnits.
Qed.

(** C7.  The clamp is min(10, max(0, v)) for every integer v, with
    clamp(-5) = 0, clamp(15) = 10 and clamp(5) = 5, and the volume field
    of every encoded play or volume command is a number from 0 to 10. *)
Theorem clampVolume_bounds :
  (forall v, clampVolume v = Z.min 10 (Z.max 0 v))
  /\ clampVolume (-5) = 0 /\ clampVolume 15 = 10 /\ clampVolume 5 = 5
  /\ (forall sys snd loc vol,
        exists s k l n,
          0 <= n <= 10
          /\ raw (formatCommand (playCommand sys snd loc vol))
             = lit "P:" ++ s ++ lit ":" ++ k ++ lit ":" ++ l ++ lit ":"
                 ++ numberToString n)
  /\ (forall sys snd loc vol,
        exists n,
          0 <= n <= 10
          /\ raw (formatCommand (volumeCommand sys snd loc vol))
             = lit "V:" ++ numberToString n).
Proof.
  split; [exact clampVolume_min_max|].
  repeat split; try reflexivity.
  - intros sys snd loc vol. rewrite raw_play.
    do 3 eexists. exists (clampVolume (volumeOrDefault vol)).
    split; [rewrite clampVolume_min_max; lia | reflexivity].
  - intros sys snd loc vol. rewrite raw_volume.
    exists (clampVolume (volumeOrDefault vol)).
    split; [rewrite clampVolume_min_max; lia | reflexivity].
Qed.

(** C10.  A play or volume command whose volume is exactly 0 is encoded
    like the same command without a volume: the default 5 takes its
    place, so the volume field reads 5 and not 0. *)
Theorem zero_volume_is_default (sys snd loc : option jsstring) :
  formatCommand (playCommand sys snd loc (Some 0))
  = formatCommand (playCommand sys snd loc None)
  /\ formatCommand (volumeCommand sys snd loc (Some 0))
     = formatCommand (volumeCommand sys snd loc None)
  /\ raw (formatCommand (volumeCommand sys snd loc (Some 0))) = lit "V:5"
  /\ (exists s k l,
        raw (formatCommand (playCommand sys snd loc (Some 0)))
        = lit "P:" ++ s ++ lit ":" ++ k ++ lit ":" ++ l ++ lit ":5")
  /\ last (raw (formatCommand (playCommand sys snd loc (Some 0)))) 0%N = 53%N
  /\ last (raw (formatCommand (volumeCommand sys snd loc (Some 0)))) 0%N = 53%N.
Proof.
  repeat split; try reflexivity.
  - rewrite raw_play. do 3 eexists. reflexivity.
  - rewrite raw_play. cbn [volumeOrDefault].
    change (numberToString (clampVolume 5)) with [53%N].
    rewrite !app_assoc. apply last_last.
Qed.

End Frame.

Section Tables.

Lemma str_eqb_eq (a b : jsstring) : str_eqb a b = true <-> a = b.
Proof.
  unfold str_eqb. destruct (list_eq_dec N.eq_dec a b); split; congruence.
Qed.

Lemma str_eqb_neq (a b : jsstring) : str_eqb a b = false <-> a <> b.
Proof.
  unfold str_eqb. destruct (list_eq_dec N.eq_dec a b); split; congruence.
Qed.

Lemma lit_below (s : string) : below 256 (lit s).
Proof.
  unfold below, lit. apply Forall_forall. intros u Hu.
  apply in_map_iff in Hu. destruct Hu as (a & <- & _).
  apply N_ascii_bounded.
Qed.

Lemma below_app (bound : N) (a b : jsstring) :
  below bound a -> below bound b -> below bound (a ++ b).
Proof. unfold below. intros. now apply Forall_app. Qed.

Lemma toUpperCase_cons (u : N) (s : jsstring) :
  exists u' s', toUpperCase (u :: s) = u' :: s'.
Proof.
  unfold toUpperCase. cbn [flat_map]. unfold upperUnit.
  repeat match goal with
         | |- context [if ?b then _ else _] => destruct b
         end; cbn [app]; eauto.
Qed.

Lemma upperUnit_ascii (u : N) :
  (u < 128)%N -> below 128 (upperUnit u).
Proof.
  intros Hu. unfold upperUnit, below.
  destruct ((97 <=? u) && (u <=? 122))%N eqn:E1.
  { apply andb_true_iff in E1. destruct E1 as [E1 _]. apply N.leb_le in E1.
    constructor; [lia | constructor]. }
  destruct (N.eqb_spec u 181); [lia|].
  destruct (N.eqb_spec u 223); [lia|].
  destruct (N.eqb_spec u 255); [lia|].
  destruct ((224 <=? u) && (u <=? 254) && negb (u =? 247))%N eqn:E2.
  { apply andb_true_iff in E2. destruct E2 as [E2 _].
    apply andb_true_iff in E2. destruct E2 as [E2 _]. apply N.leb_le in E2. lia. }
  constructor; [lia | constructor].
Qed.

Lemma toUpperCase_ascii (s : jsstring) :
  below 128 s -> below 128 (toUpperCase s).
Proof.
  unfold toUpperCase. induction 1 as [|u s Hu Hs IH]; cbn [flat_map].
  - constructor.
  - apply below_app; [now apply upperUnit_ascii | exact IH].
Qed.

Lemma below_weaken (a b : N) (s : jsstring) :
  (a <= b)%N -> below a s -> below b s.
Proof.
  intros Hab H. unfold below in *. eapply Forall_impl; [|exact H].
  cbn. intros; lia.
Qed.

(** A key the prototype does not answer gets no inherited member. *)
Lemma objectPrototypeGet_none (k : jsstring) :
  inheritedKey (Some k) = false -> objectPrototypeGet k = None.
Proof.
  unfold inheritedKey, objectPrototypeGet. cbn [existsb].
  intros H. apply orb_false_iff in H. destruct H as [H1 H2].
  rewrite H1.
  assert (H3 : str_eqb k (lit "constructor") = false).
  { cbn [objectPrototypeFunctions existsb] in H2.
    apply orb_false_iff in H2. tauto. }
  rewrite H3. now rewrite H2.
Qed.

(** Whatever the prototype answers prints in ASCII. *)
Lemma inheritedToString_below (k : jsstring) (v : inherited) :
  objectPrototypeGet k = Some v -> below 256 (inheritedToString v).
Proof.
  unfold objectPrototypeGet.
  destruct (str_eqb k (lit "__proto__")).
  { intros [= <-]. apply lit_below. }
  destruct (str_eqb k (lit "constructor")).
  { intros [= <-]. cbn [inheritedToString].
    repeat apply below_app; apply lit_below. }
  destruct (existsb _ _) eqn:E; [|discriminate].
  intros [= <-]. apply existsb_exists in E. destruct E as (n & _ & E).
  apply str_eqb_eq in E. subst k. cbn [inheritedToString].
  repeat apply below_app; apply lit_below.
Qed.

Lemma getProperty_below (table : list (string * string)) (k d : jsstring) :
  below 256 d -> below 256 (propOrElse (getProperty table k) d).
Proof.
  intros Hd. unfold getProperty.
  destruct (find _ table) as [kv|].
  - cbn [propOrElse]. pose proof (lit_below (snd kv)) as H.
    destruct (lit (snd kv)); [exact Hd | exact H].
  - destruct (objectPrototypeGet k) eqn:E; cbn [propOrElse]; [|exact Hd].
    eapply inheritedToString_below; eassumption.
Qed.

(** The system table answers as the words say when the key is not
    inherited. *)
Lemma systemCode_letter (sys : option jsstring) :
  inheritedKey sys = false ->
  propOrElse (getProperty SYSTEM_CODES (orElse sys [])) (lit "U") = systemLetter sys.
Proof.
  intros H.
  destruct sys as [[|u k]|]; [reflexivity | | reflexivity].
  cbn [orElse]. unfold getProperty, systemLetter.
  cbn [SYSTEM_CODES find fst snd].
  destruct (str_eqb (u :: k) (lit "lung")); [reflexivity|].
  destruct (str_eqb (u :: k) (lit "heart")); [reflexivity|].
  destruct (str_eqb (u :: k) (lit "bowel")); [reflexivity|].
  now rewrite (objectPrototypeGet_none _ H).
Qed.

Lemma LOCATION_CODES_nonempty :
  Forall (fun kv => lit (snd kv) <> []) LOCATION_CODES.
Proof. repeat constructor; discriminate. Qed.

Lemma locationCode_letters (loc : option jsstring) :
  inheritedKey loc = false ->
  propOrElse (getProperty LOCATION_CODES (orElse loc [])) (lit "UNK")
  = locationLetters loc.
Proof.
  intros H.
  destruct loc as [[|u k]|]; [reflexivity | | reflexivity].
  cbn [orElse]. unfold getProperty, locationLetters.
  destruct (find _ LOCATION_CODES) as [kv|] eqn:E.
  - apply find_some in E. destruct E as [E _].
    pose proof (proj1 (Forall_forall _ _) LOCATION_CODES_nonempty kv E) as Hne.
    cbn beta in Hne. cbn [propOrElse].
    destruct (lit (snd kv)); [congruence | reflexivity].
  - now rewrite (objectPrototypeGet_none _ H).
Qed.

Lemma soundCode_upper (snd : option jsstring) :
  orElse (option_map toUpperCase snd) (lit "UNK")
  = if missingOrEmpty snd then lit "UNK"
    else match snd with
         | Some s => toUpperCase s
         | None => []
         end.
Proof.
  destruct snd as [[|u s]|]; try reflexivity.
  cbn [option_map missingOrEmpty].
  destruct (toUpperCase_cons u s) as (u' & s' & ->). reflexivity.
Qed.

Lemma volumeOrDefault_cases (vol : option Z) :
  volumeOrDefault vol
  = match vol with
    | None => 5
    | Some v => if v =? 0 then 5 else v
    end.
Proof. destruct vol as [[| |]|]; reflexivity. Qed.

End Tables.

Section PlayCommand.

(** C2, as the code has it.  For every play command whose system and
    location are not names that an object inherits from
    [Object.prototype], raw is P, the system letter (L, H, B, or U for
    anything else), the uppercased sound code (UNK when it is missing or
    empty), the location letters (UNK when unmapped) and the clamped
    volume, where a missing or zero volume counts as 5.  The worked
    example gives P:L:LUNG_NORMAL:RUA:10 and 25 bytes. *)
Theorem play_raw_amended (sys snd loc : option jsstring) (vol : option Z)
    (Hsys : inheritedKey sys = false) (Hloc : inheritedKey loc = false) :
  raw (formatCommand (playCommand sys snd loc vol)) = amendedPlayRaw sys snd loc vol
  /\ raw (formatCommand examplePlay) = lit "P:L:LUNG_NORMAL:RUA:10"
  /\ List.length (bytes (formatCommand examplePlay)) = 25%nat.
Proof.
  split; [|split; reflexivity].
  rewrite raw_play. unfold amendedPlayRaw.
  rewrite (systemCode_letter _ Hsys), (locationCode_letters _ Hloc).
  rewrite soundCode_upper, clampVolume_min_max, volumeOrDefault_cases.
  reflexivity.
Qed.

Lemma play_raw_amended_witness :
  raw (formatCommand
         (playCommand (Some (lit "mystery")) (Some []) (Some (lit "elbow")) (Some 0)))
  = lit "P:U:UNK:UNK:5"
  /\ raw (formatCommand examplePlay) = lit "P:L:LUNG_NORMAL:RUA:10"
  /\ List.length (bytes (formatCommand examplePlay)) = 25%nat.
Proof.
  apply (play_raw_amended (Some (lit "mystery")) (Some []) (Some (lit "elbow"))
           (Some 0)); reflexivity.
Defined.

(** C2 as stated fails: for the system named [constructor] the system
    field is the text of a function and not U; an empty sound code
    gives UNK and not an empty field; volume 0 gives 5 and not 0. *)
Lemma play_raw_counterexample :
  (raw (formatCommand constructorPlay)
     = lit "P:function Object() { [native code] }:LUNG_NORMAL:RUA:7"
   /\ statedPlayRaw (system constructorPlay) (soundCode constructorPlay)
        (location constructorPlay) 7
      = lit "P:U:LUNG_NORMAL:RUA:7")
  /\ (raw (formatCommand emptySoundPlay) = lit "P:L:UNK:RUA:7"
      /\ statedPlayRaw (system emptySoundPlay) (soundCode emptySoundPlay)
           (location emptySoundPlay) 7
         = lit "P:L::RUA:7")
  /\ (raw (formatCommand zeroVolumePlay) = lit "P:L:LUNG_NORMAL:RUA:5"
      /\ statedPlayRaw (system zeroVolumePlay) (soundCode zeroVolumePlay)
           (location zeroVolumePlay) 0
         = lit "P:L:LUNG_NORMAL:RUA:0").
Proof. repeat split; reflexivity. Qed.

End PlayCommand.

Section ByteRange.

Lemma numberToString_below (z : Z) : below 256 (numberToString z).
Proof. apply lit_below. Qed.

Lemma raw_below (c : ArduinoCommand) :
  (forall s, soundCode c = Some s -> below 128 s) ->
  below 256 (raw (formatCommand c)).
Proof.
  intros H. unfold formatCommand.
  destruct (strictEq (action c) (lit "play")).
  - cbn [raw].
    repeat apply below_app;
      try apply lit_below; try apply numberToString_below;
      try (apply getProperty_below; apply lit_below).
    destruct (soundCode c) as [s|]; [|apply lit_below].
    specialize (H s eq_refl). cbn [option_map].
    pose proof (toUpperCase_ascii s H) as Hu.
    apply (below_weaken 128 256) in Hu; [|lia].
    destruct (toUpperCase s); [apply lit_below | exact Hu].
  - destruct (strictEq (action c) (lit "stop")); [apply lit_below|].
    destruct (strictEq (action c) (lit "volume")).
    + cbn [raw]. apply below_app; [apply lit_below | apply numberToString_below].
    + destruct (strictEq (action c) (lit "status")); apply lit_below.
Qed.

Lemma codeUnits_bytes (s : jsstring) :
  below 256 s <-> Forall isByte (codeUnits s).
Proof.
  unfold below, codeUnits, isByte. rewrite Forall_map.
  split; intros H; (eapply Forall_impl; [|exact H]); cbn; intros; lia.
Qed.

(** The bytes fit exactly when the code units of raw do. *)
Lemma bytes_fit_iff (c : ArduinoCommand) :
  Forall isByte (bytes (formatCommand c)) <-> below 256 (raw (formatCommand c)).
Proof.
  rewrite formatCommand_frame, codeUnits_bytes.
  pose proof (calculateChecksum_byte (raw (formatCommand c))) as Hk.
  rewrite <- formatCommand_checksum in Hk.
  split.
  - intros H. apply Forall_app in H. destruct H as [_ H].
    apply Forall_app in H. tauto.
  - intros H. apply Forall_app. split.
    { constructor; [unfold isByte, STX; lia | constructor]. }
    apply Forall_app. split; [exact H|].
    constructor; [unfold isByte, ETX; lia|].
    constructor; [exact Hk | constructor].
Qed.

(** C8, as the code has it.  For every command whose sound code is
    missing or made of ASCII characters, every element of bytes lies in
    [0, 255], and the frame is STX, the characters of raw, ETX and the
    checksum. *)
Theorem bytes_fit_for_ascii (c : ArduinoCommand)
    (Hascii : forall s, soundCode c = Some s -> below 128 s) :
  Forall isByte (bytes (formatCommand c))
  /\ bytes (formatCommand c)
     = [2] ++ codeUnits (raw (formatCommand c)) ++ [3; checksum (formatCommand c)].
Proof.
  split; [|apply formatCommand_frame].
  apply bytes_fit_iff, raw_below, Hascii.
Qed.

Lemma bytes_fit_for_ascii_witness :
  Forall isByte (bytes (formatCommand examplePlay))
  /\ bytes (formatCommand examplePlay)
     = [2] ++ codeUnits (raw (formatCommand examplePlay))
         ++ [3; checksum (formatCommand examplePlay)].
Proof.
  apply (bytes_fit_for_ascii examplePlay).
  intros s [= <-]. unfold below. repeat constructor.
Defined.

(** C8 as stated fails: a sound code of one ideograph puts its code
    unit, 20013, into bytes. *)
Lemma bytes_fit_counterexample :
  nth_error (bytes (formatCommand ideographPlay)) 5 = Some 20013
  /\ ~ Forall isByte (bytes (formatCommand ideographPlay)).
Proof.
  split; [reflexivity|].
  intros H. apply bytes_fit_iff in H.
  change (raw (formatCommand ideographPlay))
    with (lit "P:L:" ++ [20013%N] ++ lit ":AOR:5") in H.
  apply Forall_app in H. destruct H as [_ H].
  inversion H as [|u r Hu _]; subst. lia.
Qed.

End ByteRange.

(** ** The request handler *)

Section Hex.

Lemma hexDigit_value (d : N) :
  (d < 16)%N -> hexDigitValue (hexDigit d) = Some d.
Proof.
  intros Hd. unfold hexDigit, hexDigitValue.
  destruct (N.ltb_spec d 10).
  - replace ((48 <=? 48 + d) && (48 + d <=? 57))%N with true
      by (symmetry; apply andb_true_iff; split; apply N.leb_le; lia).
    f_equal. lia.
  - replace ((48 <=? 87 + d) && (87 + d <=? 57))%N with false
      by (symmetry; apply andb_false_iff; right; apply N.leb_gt; lia).
    replace ((97 <=? 87 + d) && (87 + d <=? 102))%N with true
      by (symmetry; apply andb_true_iff; split; apply N.leb_le; lia).
    f_equal. lia.
Qed.

Lemma hexDigit_noSpace (d : N) : hexDigit d <> 32%N.
Proof. unfold hexDigit. destruct (d <? 10)%N; lia. Qed.

(** With enough fuel the digits of [hexPos] write [n] in front of what
    was accumulated. *)
Lemma hexPos_value (fuel : nat) :
  forall (n : N) (acc : jsstring),
    (n < 16 ^ N.of_nat fuel)%N ->
    hexValueFrom 0 (hexPos fuel n acc) = hexValueFrom n acc.
Proof.
  induction fuel as [|fuel IH]; intros n acc Hn.
  - cbn in Hn. assert (n = 0%N) by lia. subst n. reflexivity.
  - cbn [hexPos].
    assert (Hd : (n mod 16 < 16)%N) by (apply N.mod_upper_bound; lia).
    assert (Hstep : hexValueFrom (n / 16) (hexDigit (n mod 16) :: acc)
                    = hexValueFrom n acc).
    { cbn [hexValueFrom]. rewrite (hexDigit_value _ Hd).
      f_equal. pose proof (N.div_mod n 16). lia. }
    destruct (N.eqb_spec (n / 16) 0) as [E|E].
    + rewrite <- Hstep, E. reflexivity.
    + rewrite IH; [exact Hstep|].
      rewrite Nat2N.inj_succ, N.pow_succ_r' in Hn.
      apply N.Div0.div_lt_upper_bound. lia.
Qed.

Lemma hexPos_noSpace (fuel : nat) :
  forall (n : N) (acc : jsstring), noSpace acc -> noSpace (hexPos fuel n acc).
Proof.
  induction fuel as [|fuel IH]; intros n acc Hacc; [exact Hacc|].
  cbn [hexPos].
  assert (H : noSpace (hexDigit (n mod 16) :: acc))
    by (constructor; [apply hexDigit_noSpace | exact Hacc]).
  destruct (n / 16 =? 0)%N; [exact H | now apply IH].
Qed.

Lemma hexPos_length (fuel : nat) :
  forall (n : N) (acc : jsstring),
    (List.length acc <= List.length (hexPos fuel n acc))%nat.
Proof.
  induction fuel as [|fuel IH]; intros n acc; [apply Nat.le_refl|].
  cbn [hexPos]. destruct (n / 16 =? 0)%N.
  - cbn [List.length]. lia.
  - specialize (IH (n / 16)%N (hexDigit (n mod 16) :: acc)).
    cbn [List.length] in IH. lia.
Qed.

Lemma enough_fuel (n : N) : (n < 16 ^ N.of_nat (S (N.to_nat (N.log2 n))))%N.
Proof.
  rewrite Nat2N.inj_succ, N2Nat.id.
  destruct (N.eq_dec n 0) as [->|Hn]; [reflexivity|].
  assert (H : (n < 2 ^ N.succ (N.log2 n))%N) by (apply N.log2_spec; lia).
  eapply N.lt_le_trans; [exact H|].
  apply N.pow_le_mono_l. lia.
Qed.

Lemma toStringHex_value (z : Z) :
  0 <= z -> hexNumber (toStringHex z) = Some z.
Proof.
  intros Hz. unfold hexNumber, hexValue, toStringHex.
  rewrite hexPos_value by apply enough_fuel.
  cbn [hexValueFrom option_map]. now rewrite Z2N.id.
Qed.

Lemma toStringHex_shape (z : Z) :
  noSpace (toStringHex z) /\ (1 <= List.length (toStringHex z))%nat.
Proof.
  unfold toStringHex. split; [apply hexPos_noSpace; constructor|].
  cbn [hexPos]. destruct (_ =? 0)%N; [cbn [List.length]; lia|].
  eapply Nat.le_trans; [|apply hexPos_length]. cbn [List.length]. lia.
Qed.

Lemma padStart2_value (s : jsstring) :
  (1 <= List.length s)%nat -> noSpace s ->
  hexNumber (padStart2 s) = hexNumber s
  /\ noSpace (padStart2 s)
  /\ (2 <= List.length (padStart2 s))%nat.
Proof.
  intros Hl Hs. destruct s as [|d [|e s]]; cbn [List.length] in Hl; [lia| |].
  - split; [|split].
    + unfold hexNumber, hexValue. reflexivity.
    + constructor; [discriminate | exact Hs].
    + cbn [padStart2 List.length]. lia.
  - split; [|split].
    + reflexivity.
    + exact Hs.
    + cbn [padStart2 List.length]. lia.
Qed.

Lemma splitSpaces_noSpace (p : jsstring) : noSpace p -> splitSpaces p = [p].
Proof.
  induction 1 as [|u p Hu Hp IH]; [reflexivity|].
  cbn [splitSpaces]. destruct (N.eqb_spec u 32); [contradiction|].
  now rewrite IH.
Qed.

Lemma splitSpaces_app (p rest : jsstring) :
  noSpace p -> splitSpaces (p ++ lit " " ++ rest) = p :: splitSpaces rest.
Proof.
  induction 1 as [|u p Hu Hp IH]; [reflexivity|].
  cbn [app splitSpaces]. destruct (N.eqb_spec u 32); [contradiction|].
  cbn [app] in IH. now rewrite IH.
Qed.

Lemma splitSpaces_join (pieces : list jsstring) :
  pieces <> [] -> Forall noSpace pieces ->
  splitSpaces (join (lit " ") pieces) = pieces.
Proof.
  intros Hne H. induction H as [|p pieces Hp Hps IH]; [congruence|].
  destruct pieces as [|q pieces].
  - cbn [join]. now apply splitSpaces_noSpace.
  - cbn [join]. rewrite splitSpaces_app by exact Hp.
    f_equal. apply IH. discriminate.
Qed.

(** Splitting the dump at the spaces and reading the pieces gives the
    numbers back; every piece has at least two digits. *)
Lemma hexDump_pieces (l : list Z) :
  l <> [] -> Forall (fun b => 0 <= b) l ->
  List.map hexNumber (splitSpaces (hexDump l)) = List.map Some l
  /\ Forall (fun piece => (2 <= List.length piece)%nat) (splitSpaces (hexDump l)).
Proof.
  intros Hne Hl. unfold hexDump.
  rewrite splitSpaces_join.
  - split.
    + rewrite map_map. apply map_ext_in. intros b Hb.
      destruct (toStringHex_shape b) as [Hs Hlen].
      destruct (padStart2_value _ Hlen Hs) as (-> & _ & _).
      apply toStringHex_value.
      exact (proj1 (Forall_forall _ _) Hl b Hb).
    + apply Forall_map, Forall_forall. intros b _.
      destruct (toStringHex_shape b) as [Hs Hlen].
      now destruct (padStart2_value _ Hlen Hs) as (_ & _ & H2).
  - destruct l; [congruence | discriminate].
  - apply Forall_map, Forall_forall. intros b _.
    destruct (toStringHex_shape b) as [Hs Hlen].
    now destruct (padStart2_value _ Hlen Hs) as (_ & H2 & _).
Qed.

Lemma bytes_nonneg (c : ArduinoCommand) :
  bytes (formatCommand c) <> []
  /\ Forall (fun b => 0 <= b) (bytes (formatCommand c)).
Proof.
  rewrite formatCommand_frame. split; [discriminate|].
  pose proof (calculateChecksum_byte (raw (formatCommand c))) as Hk.
  rewrite <- formatCommand_checksum in Hk. unfold isByte in Hk.
  apply Forall_app. split; [repeat constructor; unfold STX; lia|].
  apply Forall_app. split.
  - unfold codeUnits. apply Forall_map, Forall_forall. intros; lia.
  - constructor; [unfold ETX; lia|]. constructor; [lia | constructor].
Qed.

End Hex.

Section Handler.

Lemma falsy_missingOrEmpty (o : option jsstring) :
  negb (truthy o) = missingOrEmpty o.
Proof. destruct o as [[|u s]|]; reflexivity. Qed.

(** C6, as the code has it.  For a request that is not a preflight and
    carries a command: the response is the 400 error about the action
    exactly when the action is missing or empty; it is the 400 error
    about the play fields when the action is play and any of system,
    sound code and location is missing or empty; for every other command
    it is the success with the formatted command, the time stamp and
    hex.  The pieces of hex between single spaces are lowercase
    hexadecimal numbers of at least two digits that write the bytes of
    the frame in order. *)
Theorem handler_amended (now m : jsstring) (c : ArduinoCommand)
    (Hm : str_eqb m (lit "OPTIONS") = false) :
  let hex := hexDump (bytes (formatCommand c)) in
  handler now {| method := m; json := Parsed c |} = amendedResponse now c
  /\ (amendedResponse now c = missingAction <-> missingOrEmpty (action c) = true)
  /\ List.map hexNumber (splitSpaces hex) = List.map Some (bytes (formatCommand c))
  /\ Forall (fun piece => (2 <= List.length piece)%nat) (splitSpaces hex).
Proof.
  intros hex.
  destruct (bytes_nonneg c) as [Hne Hpos].
  destruct (hexDump_pieces _ Hne Hpos) as [Hval Hlen].
  repeat split; try assumption.
  - unfold handler, amendedResponse. cbn [method json]. rewrite Hm.
    now rewrite !falsy_missingOrEmpty.
  - unfold amendedResponse.
    destruct (missingOrEmpty (action c)); [reflexivity|].
    destruct (_ && _); discriminate.
  - intros H. unfold amendedResponse. now rewrite H.
Qed.

Lemma handler_amended_witness :
  let hex := hexDump (bytes (formatCommand examplePlay)) in
  handler exampleTimestamp (post examplePlay)
  = amendedResponse exampleTimestamp examplePlay
  /\ (amendedResponse exampleTimestamp examplePlay = missingAction
      <-> missingOrEmpty (action examplePlay) = true)
  /\ List.map hexNumber (splitSpaces hex)
     = List.map Some (bytes (formatCommand examplePlay))
  /\ Forall (fun piece => (2 <= List.length piece)%nat) (splitSpaces hex).
Proof.
  apply (handler_amended exampleTimestamp (lit "POST") examplePlay).
  reflexivity.
Defined.

(** C6 as stated fails: a play command whose system is there but empty
    gets the 400 error about the play fields and not the success; a
    command whose action is there but empty gets the 400 error about
    the action. *)
Lemma handler_counterexample :
  (handler exampleTimestamp (post emptySystemPlay) = playIncomplete
   /\ statedResponse exampleTimestamp emptySystemPlay
      = formatted exampleTimestamp emptySystemPlay
   /\ handler exampleTimestamp (post emptySystemPlay)
      <> statedResponse exampleTimestamp emptySystemPlay)
  /\ (handler exampleTimestamp (post emptyAction) = missingAction
      /\ statedResponse exampleTimestamp emptyAction
         = formatted exampleTimestamp emptyAction
      /\ handler exampleTimestamp (post emptyAction)
         <> statedResponse exampleTimestamp emptyAction).
Proof.
  repeat split; try reflexivity; intros H; apply (f_equal status) in H;
    vm_compute in H; discriminate.
Qed.

End Handler.

(** ** The diagnostics log *)

Section LastLines.

Context {A : Type}.

Lemma lastn_length (n : nat) (l : list A) :
  List.length (lastn n l) = Nat.min n (List.length l).
Proof. unfold lastn. rewrite length_skipn. lia. Qed.

Lemma lastn_all (n : nat) (l : list A) :
  (List.length l <= n)%nat -> lastn n l = l.
Proof.
  intros H. unfold lastn.
  now replace (List.length l - n)%nat with 0%nat by lia.
Qed.

(** Cutting to the last [n] before appending changes nothing for the
    last [n] after. *)
Lemma lastn_app_lastn (n : nat) (x y : list A) :
  lastn n (lastn n x ++ y) = lastn n (x ++ y).
Proof.
  destruct (Nat.le_gt_cases (List.length x) n) as [H|H].
  - now rewrite (lastn_all n x H).
  - unfold lastn at 1 3. rewrite !skipn_app.
    rewrite !length_app, lastn_length.
    replace (Nat.min n (List.length x)) with n by lia.
    unfold lastn. rewrite skipn_skipn. f_equal; f_equal; lia.
Qed.

Lemma slice_last99 (l : list A) : slice (-99) l = lastn 99 l.
Proof.
  unfold slice, lastn. cbn [Z.ltb Z.compare]. f_equal.
  rewrite Math_max_spec. lia.
Qed.

Lemma lastn_snoc (n : nat) (l : list A) (x : A) :
  lastn n l ++ [x] = lastn (S n) (l ++ [x]).
Proof.
  unfold lastn. rewrite skipn_app, length_app. cbn [List.length].
  replace (List.length l + 1 - S n)%nat with (List.length l - n)%nat by lia.
  replace (List.length l - n - List.length l)%nat with 0%nat by lia.
  reflexivity.
Qed.

Lemma lastOption_snoc (l : list A) (x : A) : lastOption (l ++ [x]) = Some x.
Proof. unfold lastOption. now rewrite rev_app_distr. Qed.

Lemma lastOption_lastn (n : nat) (l : list A) (x : A) :
  lastOption (lastn (S n) (l ++ [x])) = Some x.
Proof. rewrite <- lastn_snoc. apply lastOption_snoc. Qed.

End LastLines.

Section Log.

Variable env : Env.

Lemma logsAfter_one (prev : list jsstring) (line : jsstring) :
  slice (-99) prev ++ [line] = logsAfter prev [line].
Proof. rewrite slice_last99. apply lastn_snoc. Qed.

Lemma logsAfter_app (prev a b : list jsstring) :
  logsAfter (logsAfter prev a) b = logsAfter prev (a ++ b).
Proof.
  destruct a as [|x a]; [reflexivity|].
  destruct b as [|y b]; [now rewrite app_nil_r|].
  cbn [logsAfter app]. rewrite lastn_app_lastn, <- app_assoc. reflexivity.
Qed.

Lemma logsAfter_bounded (prev lines : list jsstring) :
  (List.length prev <= 100)%nat -> (List.length (logsAfter prev lines) <= 100)%nat.
Proof.
  intros H. destruct lines; [exact H|]. cbn [logsAfter].
  rewrite lastn_length. lia.
Qed.

Lemma stampedLines_app (start : nat) (a b : list jsstring) :
  stampedLines env start (a ++ b)
  = stampedLines env start a ++ stampedLines env (start + List.length a) b.
Proof.
  revert start. induction a as [|x a IH]; intros start; cbn [app stampedLines List.length].
  - now rewrite Nat.add_0_r.
  - rewrite IH. do 3 f_equal. lia.
Qed.

Lemma stampedLines_length (start : nat) (a : list jsstring) :
  List.length (stampedLines env start a) = List.length a.
Proof.
  revert start. induction a as [|x a IH]; intros start; cbn; [reflexivity|].
  now rewrite IH.
Qed.

(** What one [addLog] does. *)
Lemma addLog_run (message : jsstring) (w : World) :
  addLog env message w
  = (Return tt,
     {| hook :=
          mkHook (isSupported (hook w)) (isConnected (hook w)) (isConnecting (hook w))
            (deviceStatus (hook w))
            (logsAfter (logs (hook w)) (stampedLines env (dates w) [message]))
            (portRef (hook w)) (readerRef (hook w)) (writerRef (hook w));
        events := events w;
        dates := S (dates w) |}).
Proof.
  unfold addLog, bind, newDate, setLogs, modifyHook. cbn.
  now rewrite logsAfter_one.
Qed.

(** What a run of insertions does to the log and the clock. *)
Lemma forEach_addLog (messages : list jsstring) :
  forall w,
    let w' := snd (forEach messages (addLog env) w) in
    logs (hook w') = logsAfter (logs (hook w)) (stampedLines env (dates w) messages)
    /\ dates w' = (dates w + List.length messages)%nat.
Proof.
  induction messages as [|m messages IH]; intros w.
  - cbn. split; [reflexivity | lia].
  - intros w'. subst w'. cbn [forEach]. unfold bind. rewrite addLog_run.
    match goal with |- context [forEach messages (addLog env) ?w1] =>
      destruct (IH w1) as [Hl Hd] end.
    cbn zeta in Hl, Hd. rewrite Hl, Hd. cbn [hook logs dates List.length].
    split; [|lia].
    rewrite logsAfter_app. reflexivity.
Qed.

End Log.

Section Bound.

Variable env : Env.

Lemma keeps_ret {A} (a : A) : keepsBound (ret a).
Proof. intros w H. exact H. Qed.

Lemma keeps_throw {A} (e : Thrown) : keepsBound (@throw A e).
Proof. intros w H. exact H. Qed.

Lemma keeps_bind {A B} (m : M A) (k : A -> M B) :
  keepsBound m -> (forall a, keepsBound (k a)) -> keepsBound (bind m k).
Proof.
  intros Hm Hk w H. unfold bind. specialize (Hm w H).
  destruct (m w) as [[a|e] w']; cbn [snd] in *; [now apply Hk | exact Hm].
Qed.

Lemma keeps_tryCatch {A} (body : M A) (handler : Thrown -> M A) :
  keepsBound body -> (forall e, keepsBound (handler e)) ->
  keepsBound (tryCatch body handler).
Proof.
  intros Hm Hk w H. unfold tryCatch. specialize (Hm w H).
  destruct (body w) as [[a|e] w']; cbn [snd] in *; [exact Hm | now apply Hk].
Qed.

Lemma keeps_tryFinally {A} (body : M A) (cleanup : M unit) :
  keepsBound body -> keepsBound cleanup -> keepsBound (tryFinally body cleanup).
Proof.
  intros Hm Hc w H. unfold tryFinally. specialize (Hm w H).
  destruct (body w) as [c w']; cbn [snd] in *. specialize (Hc w' Hm).
  destruct (cleanup w') as [[a|e] w'']; exact Hc.
Qed.

Lemma keeps_getHook : keepsBound getHook.
Proof. intros w H. exact H. Qed.

Lemma keeps_emit (e : Event) : keepsBound (emit e).
Proof. intros w H. exact H. Qed.

Lemma keeps_toast (k : ToastKind) (m : jsstring) : keepsBound (toast k m).
Proof. apply keeps_emit. Qed.

Lemma keeps_call (op : SerialOp) : keepsBound (call env op).
Proof. intros w H. unfold call. destruct (failure env _ _); exact H. Qed.

Lemma keeps_requestPort : keepsBound (requestPort env).
Proof.
  intros w H. unfold requestPort, call. destruct (failure env _ _); exact H.
Qed.

Lemma keeps_newDate : keepsBound (newDate env).
Proof. intros w H. exact H. Qed.

Lemma keeps_addLog (message : jsstring) : keepsBound (addLog env message).
Proof.
  intros w H. rewrite addLog_run. unfold bounded in *. cbn [snd hook logs].
  now apply logsAfter_bounded.
Qed.

Lemma keeps_clearLogs : keepsBound clearLogs.
Proof. intros w H. unfold bounded. cbn. lia. Qed.

Lemma keeps_setIsConnected (b : bool) : keepsBound (setIsConnected b).
Proof. intros w H. exact H. Qed.

Lemma keeps_setIsConnecting (b : bool) : keepsBound (setIsConnecting b).
Proof. intros w H. exact H. Qed.

Lemma keeps_setDeviceStatus (f : DeviceStatus -> DeviceStatus) :
  keepsBound (setDeviceStatus f).
Proof. intros w H. exact H. Qed.

Lemma keeps_setPortRef (p : option SerialPort) : keepsBound (setPortRef p).
Proof. intros w H. exact H. Qed.

Lemma keeps_setReaderRef (r : option Reader) : keepsBound (setReaderRef r).
Proof. intros w H. exact H. Qed.

Lemma keeps_setWriterRef (x : option Writer) : keepsBound (setWriterRef x).
Proof. intros w H. exact H. Qed.

Lemma keeps_forEach {A} (xs : list A) (body : A -> M unit) :
  (forall x, keepsBound (body x)) -> keepsBound (forEach xs body).
Proof.
  intros Hb. induction xs as [|x xs IH]; cbn [forEach].
  - apply keeps_ret.
  - apply keeps_bind; [apply Hb | intros _; exact IH].
Qed.

Create HintDb keeps discriminated.

Hint Resolve keeps_ret keeps_throw keeps_getHook keeps_emit keeps_toast keeps_call
  keeps_requestPort keeps_newDate keeps_addLog keeps_clearLogs keeps_setIsConnected
  keeps_setIsConnecting keeps_setDeviceStatus keeps_setPortRef keeps_setReaderRef
  keeps_setWriterRef : keeps.

(** One step through the syntax of a computation. *)
Ltac keeps_step :=
  match goal with
  | |- keepsBound (bind _ _) => apply keeps_bind; [|intro]
  | |- keepsBound (tryCatch _ _) => apply keeps_tryCatch; [|intro]
  | |- keepsBound (tryFinally _ _) => apply keeps_tryFinally
  | |- keepsBound (forEach _ _) => apply keeps_forEach; intro
  | |- keepsBound (if ?b then _ else _) => destruct b
  | |- keepsBound (match ?x with _ => _ end) => destruct x
  | |- keepsBound (let '(_, _) := ?p in _) => destruct p
  | |- keepsBound _ => solve [auto with keeps]
  end.

Lemma keeps_connect (options : PartialOptions) : keepsBound (connect env options).
Proof. unfold connect. repeat keeps_step. Qed.

Lemma keeps_disconnect : keepsBound (disconnect env).
Proof. unfold disconnect. repeat keeps_step. Qed.

Lemma keeps_processChunk (buffer decoded : jsstring) :
  keepsBound (processChunk env buffer decoded).
Proof. unfold processChunk. repeat keeps_step. Qed.

Lemma keeps_readChunks (reads : list ReadResult) :
  forall buffer, keepsBound (readChunks env reads buffer).
Proof.
  induction reads as [|r reads IH]; intros buffer; cbn [readChunks].
  - apply keeps_ret.
  - destruct r; auto with keeps.
    apply keeps_bind; [apply keeps_processChunk | intro; apply IH].
Qed.

Lemma keeps_readLoop (reads : list ReadResult) : keepsBound (readLoop env reads).
Proof.
  unfold readLoop. repeat keeps_step. apply keeps_readChunks.
Qed.

Lemma keeps_sendBytes (data : list Z) : keepsBound (sendBytes env data).
Proof. unfold sendBytes. repeat keeps_step. Qed.

Lemma run_bounded (op : Operation) (w : World) : bounded w -> bounded (run env op w).
Proof.
  destruct op; cbn [run].
  - apply keeps_connect.
  - apply keeps_disconnect.
  - apply keeps_readLoop.
  - apply keeps_sendBytes.
  - apply keeps_addLog.
  - apply keeps_clearLogs.
Qed.

Lemma runAll_bounded (ops : list Operation) :
  forall w, bounded w -> bounded (runAll env ops w).
Proof.
  unfold runAll. induction ops as [|op ops IH]; intros w H; cbn [fold_left].
  - exact H.
  - apply IH, run_bounded, H.
Qed.

End Bound.

Section RingBuffer.

Variable env : Env.

Lemma runAll_addLog (messages : list jsstring) :
  forall w,
    runAll env (List.map DoAddLog messages) w = snd (forEach messages (addLog env) w).
Proof.
  unfold runAll.
  induction messages as [|m messages IH]; intros w; [reflexivity|].
  cbn [List.map fold_left forEach run]. rewrite IH.
  unfold bind. rewrite addLog_run. reflexivity.
Qed.

Lemma logsAfter_empty (lines : list jsstring) : logsAfter [] lines = lastn 100 lines.
Proof. destruct lines; reflexivity. Qed.

(** C9.  The log never holds more than 100 lines, whatever is done with
    the hook.  Insertions into an empty log leave the last hundred of
    the inserted lines, oldest first: after 150 insertions the log has
    exactly 100 lines, the first 50 are gone and the other 100 are
    there in the order of insertion. *)
Theorem log_bounded (w : World) (messages : list jsstring)
    (Hempty : logs (hook w) = []) :
  (forall ops supported,
      bounded (runAll env ops {| hook := initialHook supported; events := []; dates := 0 |}))
  /\ (forall ops w0, bounded w0 -> bounded (runAll env ops w0))
  /\ let w' := runAll env (List.map DoAddLog messages) w in
     let inserted := stampedLines env (dates w) messages in
     logs (hook w') = lastn 100 inserted
     /\ (List.length messages = 150%nat ->
         List.length (logs (hook w')) = 100%nat
         /\ logs (hook w') = skipn 50 inserted).
Proof.
  split; [|split].
  - intros ops supported. apply runAll_bounded. unfold bounded. cbn. lia.
  - intros ops w0. apply runAll_bounded.
  - intros w' inserted. subst w'.
    rewrite runAll_addLog.
    destruct (forEach_addLog env messages w) as [Hl _]. cbn zeta in Hl.
    rewrite Hl, Hempty, logsAfter_empty. fold inserted.
    split; [reflexivity|].
    intros Hn.
    assert (Hi : List.length inserted = 150%nat)
      by (unfold inserted; now rewrite stampedLines_length).
    split.
    + rewrite lastn_length, Hi. reflexivity.
    + unfold lastn. now rewrite Hi.
Qed.

End RingBuffer.

Lemma log_bounded_witness :
  let w' := runAll quietEnv (List.map DoAddLog (numberedMessages 150)) freshWorld in
  List.length (logs (hook w')) = 100%nat
  /\ logs (hook w') = skipn 50 (stampedLines quietEnv 0 (numberedMessages 150)).
Proof.
  destruct (log_bounded quietEnv freshWorld (numberedMessages 150) eq_refl)
    as (_ & _ & _ & H).
  apply H. reflexivity.
Defined.

(** ** The read loop *)

Section Reassembly.

Variable env : Env.

Lemma split_nonempty (s : jsstring) : split s <> [].
Proof.
  induction s as [|u s IH]; cbn [split]; [discriminate|].
  destruct (isTerminator u); [discriminate|].
  destruct (split s); [congruence | discriminate].
Qed.

Lemma pop_nonempty {A : Type} (l : list A) (d : A) :
  l <> [] -> pop l = (removelast l, Some (last l d)).
Proof.
  intros H. unfold pop.
  rewrite (app_removelast_last d H) at 1.
  rewrite rev_app_distr. cbn [rev app]. now rewrite rev_involutive.
Qed.

Lemma orElse_some (s : jsstring) : orElse (Some s) [] = s.
Proof. destruct s; reflexivity. Qed.

Lemma lastOption_app {A : Type} (a b : list A) :
  lastOption (a ++ b)
  = match lastOption b with
    | Some m => Some m
    | None => lastOption a
    end.
Proof.
  unfold lastOption. rewrite rev_app_distr.
  destruct (rev b); [now rewrite app_nil_l | reflexivity].
Qed.

Lemma afterMessages_nil (w : World) : afterMessages env [] w = w.
Proof.
  destruct w as [[s c g [cn pn lr lt] lg p r x] ev d].
  reflexivity.
Qed.

Lemma afterMessages_app (a b : list jsstring) (w : World) :
  afterMessages env b (afterMessages env a w) = afterMessages env (a ++ b) w.
Proof.
  unfold afterMessages. cbn [hook deviceStatus logs events dates isSupported
    isConnected isConnecting connected portName lastResponse lastCommandTime
    portRef readerRef writerRef].
  rewrite logsAfter_app, map_app, stampedLines_app, length_map, lastOption_app.
  rewrite length_app.
  rewrite (Nat.add_comm (dates w) (List.length a)).
  replace (List.length b + (List.length a + dates w))%nat
    with (List.length a + List.length b + dates w)%nat by lia.
  destruct (lastOption b); reflexivity.
Qed.

(** The body of the [for] loop on one segment. *)
Lemma line_run (line : jsstring) (w : World) :
  (if truthy (Some (trim line)) then
     bind (addLog env (leftArrow ++ lit " " ++ trim line))
       (fun _ =>
          setDeviceStatus (fun prev =>
            {| connected := connected prev; portName := portName prev;
               lastResponse := Some (trim line);
               lastCommandTime := lastCommandTime prev |}))
   else ret tt) w
  = (Return tt,
     afterMessages env
       (filter (fun m => match m with [] => false | _ :: _ => true end) [trim line]) w).
Proof.
  destruct (trim line) as [|u t] eqn:E; cbn [truthy filter].
  - now rewrite afterMessages_nil.
  - unfold bind. rewrite addLog_run. reflexivity.
Qed.

Lemma lines_run (lines : list jsstring) :
  forall w,
    forEach lines (fun line =>
      if truthy (Some (trim line)) then
        bind (addLog env (leftArrow ++ lit " " ++ trim line))
          (fun _ =>
             setDeviceStatus (fun prev =>
               {| connected := connected prev; portName := portName prev;
                  lastResponse := Some (trim line);
                  lastCommandTime := lastCommandTime prev |}))
      else ret tt) w
    = (Return tt,
       afterMessages env
         (filter (fun m => match m with [] => false | _ :: _ => true end)
            (List.map trim lines)) w).
Proof.
  induction lines as [|line lines IH]; intros w.
  - cbn [forEach List.map filter]. now rewrite afterMessages_nil.
  - cbn [forEach]. unfold bind at 1. rewrite line_run. cbv beta iota.
    rewrite IH, afterMessages_app, <- filter_app. reflexivity.
Qed.

(** C3, as the code has it.  For every chunk, the carry-over buffer
    plus the decoded chunk is split at newline and 0x03 alike; every
    segment but the last, trimmed and not empty, is a complete message:
    it is logged as received and becomes the last response, while
    [lastCommandTime] stays what it was; the last segment is the new
    carry-over.  The chunk A, newline, B, 0x03, C gives the messages A
    and B and the carry-over C. *)
Theorem processChunk_amended (buffer decoded : jsstring) (w : World) :
  let segments := split (buffer ++ decoded) in
  let messages := completeMessages segments in
  let w' := afterMessages env messages w in
  processChunk env buffer decoded w = (Return (carryOver segments), w')
  /\ logs (hook w')
     = logsAfter (logs (hook w))
         (stampedLines env (dates w) (List.map received messages))
  /\ lastResponse (deviceStatus (hook w'))
     = match lastOption messages with
       | Some m => Some m
       | None => lastResponse (deviceStatus (hook w))
       end
  /\ lastCommandTime (deviceStatus (hook w')) = lastCommandTime (deviceStatus (hook w))
  /\ completeMessages (split exampleChunk) = [[65%N]; [66%N]]
  /\ carryOver (split exampleChunk) = [67%N].
Proof.
  intros segments messages w'.
  split; [|repeat split; reflexivity].
  unfold processChunk. fold segments.
  rewrite (pop_nonempty segments [] (split_nonempty _)).
  rewrite orElse_some. unfold bind. rewrite lines_run. reflexivity.
Qed.

End Reassembly.

(** A message split over two chunks comes out once, whole, and leaves
    an empty carry-over. *)
Example two_chunks_one_message :
  let r := readChunks quietEnv exampleReads [] freshWorld in
  fst r = Return []
  /\ logs (hook (snd r)) = [lit "[0] " ++ leftArrow ++ lit " OK:PLAYING:LUNG"]
  /\ lastResponse (deviceStatus (hook (snd r))) = Some (lit "OK:PLAYING:LUNG").
Proof. repeat split; reflexivity. Qed.

(** C3 as stated fails: after the chunk A, newline, B, 0x03, C went
    through a fresh hook, B is the last response and two lines are
    logged, yet [lastCommandTime] still holds nothing. *)
Lemma processChunk_counterexample :
  let w' := snd (processChunk quietEnv [] exampleChunk freshWorld) in
  fst (processChunk quietEnv [] exampleChunk freshWorld) = Return [67%N]
  /\ lastResponse (deviceStatus (hook w')) = Some [66%N]
  /\ List.length (logs (hook w')) = 2%nat
  /\ lastCommandTime (deviceStatus (hook w')) = None.
Proof. repeat split; reflexivity. Qed.

(** ** Connecting and disconnecting *)

Section Lifecycle.

Variable env : Env.

Lemma callsOf_app (a b : list Event) : callsOf (a ++ b) = callsOf a ++ callsOf b.
Proof. unfold callsOf. apply flat_map_app. Qed.

(** C5, as the code has it.  Calling [connect] while the hook is
    connected is a no-op that returns success: it only shows a notice,
    makes no call into the serial API, so it requests no device and
    acquires no second reader or writer, and it leaves the state and the
    handles as they are. *)
Theorem connect_when_connected (options : PartialOptions) (w : World)
    (Hs : isSupported (hook w) = true) (Hc : isConnected (hook w) = true) :
  connect env options w
  = (Return true,
     {| hook := hook w;
        events := events w ++ [Toast ToastInfo (lit "Already connected to a device")];
        dates := dates w |})
  /\ callsOf (events (snd (connect env options w))) = callsOf (events w)
  /\ connectionState (hook (snd (connect env options w))) = Connected.
Proof.
  assert (E : connect env options w
              = (Return true,
                 {| hook := hook w;
                    events := events w
                              ++ [Toast ToastInfo (lit "Already connected to a device")];
                    dates := dates w |})).
  { unfold connect, bind, getHook. cbv beta iota. rewrite Hs, Hc. reflexivity. }
  rewrite E. cbn [snd events hook]. repeat split.
  - rewrite callsOf_app. cbn. apply app_nil_r.
  - unfold connectionState. now rewrite Hs, Hc.
Qed.

End Lifecycle.

Lemma connect_when_connected_witness :
  connect quietEnv defaultOptions connectedWorld
  = (Return true,
     {| hook := hook connectedWorld;
        events := events connectedWorld
                  ++ [Toast ToastInfo (lit "Already connected to a device")];
        dates := dates connectedWorld |})
  /\ callsOf (events (snd (connect quietEnv defaultOptions connectedWorld)))
     = callsOf (events connectedWorld)
  /\ connectionState (hook (snd (connect quietEnv defaultOptions connectedWorld)))
     = Connected.
Proof.
  apply (connect_when_connected quietEnv defaultOptions connectedWorld);
    reflexivity.
Defined.

(** C5 as stated fails: while a first [connect] is under way, a second
    one is no no-op; it requests a port, opens it and acquires a writer
    and a reader. *)
Lemma connect_counterexample :
  let w' := snd (connect quietEnv defaultOptions connectingWorld) in
  connectionState (hook connectingWorld) = Connecting
  /\ callsOf (events connectingWorld) = []
  /\ callsOf (events w')
     = [RequestPort; OpenPort 0 DEFAULT_SERIAL_OPTIONS; GetWriter 0; GetReader 0]
  /\ readerRef (hook connectingWorld) = None
  /\ readerRef (hook w') = Some (ReaderOf 0)
  /\ writerRef (hook w') = Some (WriterOf 0).
Proof. repeat split; reflexivity. Qed.

Section Teardown.

Variable env : Env.

Lemma lastOption_logsAfter (prev : list jsstring) (line : jsstring) :
  lastOption (logsAfter prev [line]) = Some line.
Proof. cbn [logsAfter]. apply lastOption_lastn. Qed.

Ltac teardown_simpl :=
  cbn [callsUntilFailure teardownCalls app fst snd hook events dates readerRef
       writerRef portRef isSupported isConnected isConnecting deviceStatus logs].

Ltac teardown_step :=
  match goal with
  | |- context [failure env ?evs ?op] =>
      let E := fresh "E" in destruct (failure env evs op) eqn:E
  end.

(** C4, as the code has it.  [disconnect] never throws.  It makes the
    teardown calls for the handles it holds in their order (cancel the
    reader, release its lock, close the writer, close the port) up to
    and including the first one that fails.  When none fails the hook
    ends with no handle, the cleared status and not connected, which is
    the state Disconnected.  When one fails the later steps are not
    made, the failure is logged, and the connected flag and the status
    stay what they were. *)
Theorem disconnect_amended (w : World) :
  let outcome := callsUntilFailure env (events w) (teardownCalls (hook w)) in
  let w' := snd (disconnect env w) in
  fst (disconnect env w) = Return tt
  /\ callsOf (events w') = callsOf (events w) ++ fst outcome
  /\ (exists rest, teardownCalls (hook w) = fst outcome ++ rest)
  /\ match snd outcome with
     | None =>
         fst outcome = teardownCalls (hook w)
         /\ hook w' = tornDown env w
         /\ (isSupported (hook w) = true -> isConnecting (hook w) = false ->
             connectionState (hook w') = Disconnected)
     | Some e =>
         isConnected (hook w') = isConnected (hook w)
         /\ deviceStatus (hook w') = deviceStatus (hook w)
         /\ lastOption (logs (hook w'))
            = Some (logLine (toLocaleTimeString env (dateAt env (dates w)))
                      (lit "Disconnect error: " ++ messageOf e))
     end.
Proof.
  destruct w as [[s c g st lg p r x] ev d].
  intros outcome w'. subst outcome w'.
  unfold disconnect, tryCatch, bind, getHook, call, setReaderRef, setWriterRef,
    setPortRef, setIsConnected, setDeviceStatus, toast, emit, modifyHook, ret.
  destruct r as [r|]; destruct x as [x|]; destruct p as [p|];
    teardown_simpl;
    repeat (teardown_step; teardown_simpl);
    rewrite ?addLog_run; teardown_simpl;
    rewrite ?callsOf_app; cbn [callsOf flat_map app];
    rewrite ?app_nil_r, <- ?app_assoc; cbn [app].
  all: repeat match goal with
       | |- _ /\ _ => split
       | |- exists _, _ => eexists; reflexivity
       | |- lastOption (logsAfter _ _) = _ => apply lastOption_logsAfter
       | |- _ -> _ => intro
       | |- _ => reflexivity
       end.
  all: subst; reflexivity.
Qed.

End Teardown.

Lemma disconnect_amended_witness :
  let w' := snd (disconnect quietEnv connectedWorld) in
  callsOf (events w')
  = callsOf (events connectedWorld)
      ++ [CancelReader (ReaderOf 0); ReleaseLock (ReaderOf 0);
          CloseWriter (WriterOf 0); ClosePort 0]
  /\ connectionState (hook w') = Disconnected.
Proof.
  destruct (disconnect_amended quietEnv connectedWorld) as (_ & Hc & _ & _ & _ & H).
  split; [exact Hc | apply H; reflexivity].
Defined.

(** C4 as stated fails: when cancelling the reader fails, the lock is
    not released, the writer and the port are not closed, and the hook
    stays connected with all its handles.  *)
Lemma disconnect_counterexample :
  let w' := snd (disconnect cancelFails connectedWorld) in
  connectionState (hook connectedWorld) = Connected
  /\ callsOf (events w')
     = callsOf (events connectedWorld) ++ [CancelReader (ReaderOf 0)]
  /\ connectionState (hook w') = Connected
  /\ readerRef (hook w') = Some (ReaderOf 0)
  /\ writerRef (hook w') = Some (WriterOf 0)
  /\ portRef (hook w') = portRef (hook connectedWorld)
  /\ lastOption (logs (hook w'))
     = Some (lit "[1] Disconnect error: stream is locked").
Proof. repeat split; reflexivity. Qed.

(** ** More on the encoder and the handler *)

Section Checksum.

Lemma sumUnits_app (a b : jsstring) : sumUnits (a ++ b) = sumUnits a + sumUnits b.
Proof.
  unfold sumUnits, codeUnits. induction a as [|u a IH]; cbn [app List.map fold_right].
  - lia.
  - rewrite IH. lia.
Qed.

(** X1.  The checksum of a concatenation is the sum of the two
    checksums modulo 256, and the checksum of the empty string is 0:
    a checksum can be computed piece by piece. *)
Theorem calculateChecksum_app (a b : jsstring) :
  calculateChecksum (a ++ b) = (calculateChecksum a + calculateChecksum b) mod 256
  /\ calculateChecksum [] = 0.
Proof.
  split; [|reflexivity].
  rewrite !calculateChecksum_sum, sumUnits_app. apply Z.add_mod. lia.
Qed.

Lemma sum_transmitted (l : list Z) :
  fold_right Z.add 0 (transmitted l) mod 256 = fold_right Z.add 0 l mod 256.
Proof.
  unfold transmitted. induction l as [|x l IH]; cbn [List.map fold_right]; [reflexivity|].
  rewrite Z.add_mod, IH by lia. rewrite Z.mod_mod by lia.
  rewrite <- Z.add_mod by lia. reflexivity.
Qed.

Lemma transmitted_frame (c : ArduinoCommand) :
  transmitted (bytes (formatCommand c))
  = [2] ++ transmitted (codeUnits (raw (formatCommand c)))
      ++ [3; checksum (formatCommand c)].
Proof.
  rewrite formatCommand_frame. unfold transmitted.
  rewrite !map_app. cbn [List.map].
  pose proof (calculateChecksum_byte (raw (formatCommand c))) as Hk.
  rewrite <- formatCommand_checksum in Hk. unfold isByte in Hk.
  rewrite (Z.mod_small (checksum (formatCommand c)) 256) by lia.
  reflexivity.
Qed.

(** X2.  The frame survives the reduction to bytes that sending applies:
    whatever the command, the transmitted bytes are all bytes, start
    with 0x02, have 0x03 last but one, and their last byte is the sum
    modulo 256 of the transmitted bytes between the two markers, so a
    receiver that adds up what it got finds the checksum right. *)
Theorem transmitted_checksum (c : ArduinoCommand) :
  let d := transmitted (bytes (formatCommand c)) in
  let n := List.length d in
  Forall isByte d
  /\ nth_error d 0 = Some 2
  /\ nth_error d (n - 2) = Some 3
  /\ nth_error d (n - 1)
     = Some (fold_right Z.add 0 (sliceRange 1 (n - 2) d) mod 256).
Proof.
  intros d n. subst n.
  pose proof (transmitted_frame c) as Hd. fold d in Hd.
  destruct (framed_positions 2 3 (checksum (formatCommand c))
              (transmitted (codeUnits (raw (formatCommand c)))))
    as (H0 & H1 & H2 & H3).
  rewrite <- Hd in H0, H1, H2, H3.
  split; [|split; [exact H0 | split; [exact H1|]]].
  - unfold d, transmitted. apply Forall_map, Forall_forall. intros b _.
    unfold isByte. pose proof (Z.mod_pos_bound b 256). lia.
  - rewrite H2, H3, sum_transmitted. f_equal.
    rewrite formatCommand_checksum, calculateChecksum_sum. reflexivity.
Qed.

End Checksum.

Section VolumeField.

(** X3.  The volume field over all integers: a missing volume and
    volume 0 give 5, a negative volume gives 0, a volume from 1 to 10
    is kept, a larger one gives 10.  So the field reads 0 exactly when
    the caller passed a negative volume. *)
Theorem volume_field (vol : option Z) :
  let n := clampVolume (volumeOrDefault vol) in
  (forall sys snd loc,
      raw (formatCommand (volumeCommand sys snd loc vol)) = lit "V:" ++ numberToString n)
  /\ (n = 0 <-> exists v, vol = Some v /\ v < 0)
  /\ (vol = None \/ vol = Some 0 -> n = 5)
  /\ (forall v, vol = Some v -> 1 <= v <= 10 -> n = v)
  /\ (forall v, vol = Some v -> 10 < v -> n = 10).
Proof.
  intros n. subst n. rewrite clampVolume_min_max, volumeOrDefault_cases.
  split; [|split; [|split; [|split]]].
  - intros sys snd loc. rewrite raw_volume, clampVolume_min_max, volumeOrDefault_cases.
    reflexivity.
  - destruct vol as [v|]; [|split; [lia | intros (v & [=] & _)]].
    destruct (Z.eqb_spec v 0); split.
    + lia.
    + intros (v' & [= <-] & Hv). lia.
    + intros H. exists v. split; [reflexivity | lia].
    + intros (v' & [= <-] & Hv). lia.
  - intros [-> | ->]; reflexivity.
  - intros v -> Hv. destruct (Z.eqb_spec v 0); lia.
  - intros v -> Hv. destruct (Z.eqb_spec v 0); lia.
Qed.

Lemma volume_field_witness :
  clampVolume (volumeOrDefault (Some (-3))) = 0
  /\ clampVolume (volumeOrDefault (Some 7)) = 7
  /\ clampVolume (volumeOrDefault (Some 11)) = 10
  /\ clampVolume (volumeOrDefault (Some 0)) = 5.
Proof.
  refine (conj _ (conj _ (conj _ _))).
  - apply (proj1 (proj2 (volume_field (Some (-3))))). exists (-3). split; [reflexivity | lia].
  - apply (proj1 (proj2 (proj2 (proj2 (volume_field (Some 7))))) 7); [reflexivity | lia].
  - apply (proj2 (proj2 (proj2 (proj2 (volume_field (Some 11))))) 11); [reflexivity | lia].
  - apply (proj1 (proj2 (proj2 (volume_field (Some 0))))). right. reflexivity.
Defined.

(** X4.  Every command that is neither a play nor a volume command has
    one of three fixed frames, whatever its other fields hold: S for
    stop, Q for status, and N for every other action, the missing and
    the empty one included. *)
Theorem fixed_frames (c : ArduinoCommand)
    (Hplay : strictEq (action c) (lit "play") = false)
    (Hvol : strictEq (action c) (lit "volume") = false) :
  bytes (formatCommand c)
  = (if strictEq (action c) (lit "stop") then [2; 83; 3; 83]
     else if strictEq (action c) (lit "status") then [2; 81; 3; 81]
     else [2; 78; 3; 78])
  /\ raw (formatCommand c)
     = (if strictEq (action c) (lit "stop") then lit "S"
        else if strictEq (action c) (lit "status") then lit "Q"
        else lit "N").
Proof.
  unfold formatCommand. rewrite Hplay, Hvol.
  destruct (strictEq (action c) (lit "stop")); [split; reflexivity|].
  destruct (strictEq (action c) (lit "status")); split; reflexivity.
Qed.

Lemma fixed_frames_witness :
  bytes (formatCommand emptyAction) = [2; 78; 3; 78]
  /\ raw (formatCommand emptyAction) = lit "N".
Proof. apply (fixed_frames emptyAction); reflexivity. Defined.

End VolumeField.

Section HandlerMore.

Lemma truthy_some (o : option jsstring) :
  truthy o = true -> exists u s, o = Some (u :: s).
Proof. destruct o as [[|u s]|]; try discriminate. eauto. Qed.

(** X5.  A play command that the handler answers with status 200 came
    with a system, a sound code and a location that are all there and
    not empty, so in its raw string the sound field is the uppercased
    sound code itself, never the placeholder that the encoder has for a
    missing one, and the tables were asked with the keys as given. *)
Theorem handler_play_accepted (now m : jsstring) (c : ArduinoCommand)
    (Hm : str_eqb m (lit "OPTIONS") = false)
    (Hplay : strictEq (action c) (lit "play") = true)
    (Hok : status (handler now {| method := m; json := Parsed c |}) = 200) :
  exists s k l,
    system c = Some s /\ s <> []
    /\ soundCode c = Some k /\ k <> []
    /\ location c = Some l /\ l <> []
    /\ body (handler now {| method := m; json := Parsed c |})
       = SuccessBody (formatCommand c) now (hexDump (bytes (formatCommand c)))
    /\ raw (formatCommand c)
       = lit "P:" ++ propOrElse (getProperty SYSTEM_CODES s) (lit "U") ++ lit ":"
           ++ toUpperCase k ++ lit ":"
           ++ propOrElse (getProperty LOCATION_CODES l) (lit "UNK") ++ lit ":"
           ++ numberToString (clampVolume (volumeOrDefault (volume c))).
Proof.
  unfold handler in *. cbn [method json] in *. rewrite Hm in *.
  destruct (negb (truthy (action c))); [discriminate|].
  rewrite Hplay in *. cbn [andb] in *.
  destruct (truthy (system c)) eqn:Es; [|discriminate].
  destruct (truthy (soundCode c)) eqn:Ek; [|discriminate].
  destruct (truthy (location c)) eqn:El; [|discriminate].
  cbn [negb orb body] in *.
  destruct (truthy_some _ Es) as (u1 & s1 & Hs).
  destruct (truthy_some _ Ek) as (u2 & s2 & Hk).
  destruct (truthy_some _ El) as (u3 & s3 & Hl).
  exists (u1 :: s1), (u2 :: s2), (u3 :: s3).
  repeat (split; [first [assumption | discriminate | reflexivity]|]).
  unfold formatCommand. rewrite Hplay. cbn [raw]. rewrite Hs, Hk, Hl.
  cbn [orElse option_map].
  destruct (toUpperCase_cons u2 s2) as (u' & s' & ->). reflexivity.
Qed.

Lemma handler_play_accepted_witness :
  exists s k l,
    system examplePlay = Some s /\ s <> []
    /\ soundCode examplePlay = Some k /\ k <> []
    /\ location examplePlay = Some l /\ l <> []
    /\ body (handler exampleTimestamp (post examplePlay))
       = SuccessBody (formatCommand examplePlay) exampleTimestamp
           (hexDump (bytes (formatCommand examplePlay)))
    /\ raw (formatCommand examplePlay)
       = lit "P:" ++ propOrElse (getProperty SYSTEM_CODES s) (lit "U") ++ lit ":"
           ++ toUpperCase k ++ lit ":"
           ++ propOrElse (getProperty LOCATION_CODES l) (lit "UNK") ++ lit ":"
           ++ numberToString (clampVolume (volumeOrDefault (volume examplePlay))).
Proof.
  apply (handler_play_accepted exampleTimestamp (lit "POST") examplePlay);
    reflexivity.
Defined.

Lemma toStringHex_byte (b : Z) :
  isByte b -> List.length (padStart2 (toStringHex b)) = 2%nat.
Proof.
  intros [Hlo Hhi]. unfold toStringHex.
  set (n := Z.to_N b). assert (Hn : (n < 256)%N) by (subst n; lia).
  cbn [hexPos].
  destruct (N.eqb_spec (n / 16) 0) as [E|E]; [reflexivity|].
  destruct (N.to_nat (N.log2 n)) as [|f] eqn:Ef.
  - exfalso. apply E.
    assert (N.log2 n = 0%N) by lia.
    assert (n <= 1)%N by (apply N.log2_null; assumption).
    apply N.div_small. lia.
  - cbn [hexPos].
    assert (Hq : (n / 16 / 16 = 0)%N).
    { apply N.div_small. apply N.Div0.div_lt_upper_bound. lia. }
    rewrite Hq. reflexivity.
Qed.

Lemma join_length (pieces : list jsstring) :
  Forall (fun p => List.length p = 2%nat) pieces ->
  pieces <> [] ->
  (List.length (join (lit " ") pieces) + 1 = 3 * List.length pieces)%nat.
Proof.
  induction 1 as [|p pieces Hp Hps IH]; intros Hne; [now contradiction Hne|].
  destruct pieces as [|q pieces].
  - cbn [join List.length]. lia.
  - cbn [join]. rewrite !length_app.
    assert (IH' := IH ltac:(discriminate)).
    cbn [join List.length] in *. change (List.length (lit " ")) with 1%nat. lia.
Qed.

(** X6.  When the sound code is missing or ASCII, the hex string of the
    response has fixed width: two digits for every byte of the frame
    and one space between neighbours, 3 n - 1 characters for n bytes. *)
Theorem hexDump_width (c : ArduinoCommand)
    (Hascii : forall s, soundCode c = Some s -> below 128 s) :
  let frame := bytes (formatCommand c) in
  (List.length (hexDump frame) + 1 = 3 * List.length frame)%nat
  /\ Forall (fun piece => List.length piece = 2%nat) (splitSpaces (hexDump frame)).
Proof.
  intros frame.
  assert (Hb : Forall isByte frame) by apply bytes_fit_iff, raw_below, Hascii.
  destruct (bytes_nonneg c) as [Hne Hpos]. fold frame in Hne, Hpos.
  assert (Hp : Forall (fun p => List.length p = 2%nat)
                 (List.map (fun b => padStart2 (toStringHex b)) frame)).
  { apply Forall_map. eapply Forall_impl; [|exact Hb].
    intros b. apply toStringHex_byte. }
  split.
  - unfold hexDump. rewrite join_length; [now rewrite length_map | exact Hp |].
    intros E. apply map_eq_nil in E. exact (Hne E).
  - unfold hexDump. rewrite splitSpaces_join; [exact Hp | |].
    + intros E. apply map_eq_nil in E. exact (Hne E).
    + apply Forall_map, Forall_forall. intros b _.
      destruct (toStringHex_shape b) as [Hs Hlen].
      now destruct (padStart2_value _ Hlen Hs) as (_ & H2 & _).
Qed.

Lemma hexDump_width_witness :
  let frame := bytes (formatCommand examplePlay) in
  (List.length (hexDump frame) + 1 = 3 * List.length frame)%nat
  /\ Forall (fun piece => List.length piece = 2%nat) (splitSpaces (hexDump frame)).
Proof.
  apply (hexDump_width examplePlay).
  intros s [= <-]. unfold below. repeat constructor.
Defined.

End HandlerMore.

(** ** Sending *)

Section Sending.

(** X7.  [sendBytes] without a writer or while not connected sends
    nothing: it returns false, makes no call into the serial API,
    leaves the device status alone and logs that it cannot send. *)
Theorem sendBytes_refused (env : Env) (data : list Z) (w : World)
    (H : writerRef (hook w) = None \/ isConnected (hook w) = false) :
  let w' := snd (sendBytes env data w) in
  fst (sendBytes env data w) = Return false
  /\ events w' = events w
  /\ deviceStatus (hook w') = deviceStatus (hook w)
  /\ lastOption (logs (hook w'))
     = Some (logLine (toLocaleTimeString env (dateAt env (dates w)))
               (lit "Cannot send: not connected")).
Proof.
  assert (E : sendBytes env data w
              = bind (addLog env (lit "Cannot send: not connected"))
                  (fun _ => ret false) w).
  { unfold sendBytes at 1. unfold bind at 1. unfold getHook.
    destruct (writerRef (hook w)) as [x|]; destruct (isConnected (hook w));
      try reflexivity; destruct H; discriminate. }
  intros w'. subst w'. rewrite E. unfold bind. rewrite addLog_run.
  cbn [fst snd ret events hook deviceStatus logs].
  repeat split. apply lastOption_logsAfter.
Qed.

Lemma sendBytes_refused_witness :
  let w' := snd (sendBytes quietEnv [2; 83; 3; 83] freshWorld) in
  fst (sendBytes quietEnv [2; 83; 3; 83] freshWorld) = Return false
  /\ events w' = events freshWorld
  /\ deviceStatus (hook w') = deviceStatus (hook freshWorld)
  /\ lastOption (logs (hook w'))
     = Some (logLine (toLocaleTimeString quietEnv (dateAt quietEnv (dates freshWorld)))
               (lit "Cannot send: not connected")).
Proof.
  apply (sendBytes_refused quietEnv [2; 83; 3; 83] freshWorld).
  left. reflexivity.
Defined.

(** X8.  [sendBytes] on a connected hook with a writer never throws and
    makes exactly one call: a write of the given numbers reduced modulo
    256.  When the write succeeds it returns true, logs the hex dump of
    the numbers as given after a right arrow, and sets [lastCommandTime]
    to the clock; when the write fails it returns false, logs the
    failure and leaves the device status alone. *)
Theorem sendBytes_outcome (env : Env) (data : list Z) (w : World) (x : Writer)
    (Hx : writerRef (hook w) = Some x) (Hc : isConnected (hook w) = true) :
  let w' := snd (sendBytes env data w) in
  callsOf (events w') = callsOf (events w) ++ [WriteBytes x (transmitted data)]
  /\ match failure env (events w) (WriteBytes x (transmitted data)) with
     | None =>
         fst (sendBytes env data w) = Return true
         /\ lastCommandTime (deviceStatus (hook w')) = Some (dateAt env (S (dates w)))
         /\ lastResponse (deviceStatus (hook w')) = lastResponse (deviceStatus (hook w))
         /\ logs (hook w')
            = logsAfter (logs (hook w))
                (stampedLines env (dates w)
                   [rightArrow ++ lit " " ++ hexDump data])
     | Some e =>
         fst (sendBytes env data w) = Return false
         /\ deviceStatus (hook w') = deviceStatus (hook w)
         /\ logs (hook w')
            = logsAfter (logs (hook w))
                (stampedLines env (dates w) [lit "Send error: " ++ messageOf e])
     end.
Proof.
  destruct w as [[s c g st lg p r wr] ev d]. cbn [hook writerRef isConnected] in Hx, Hc.
  subst wr c. intros w'. subst w'.
  unfold sendBytes, tryCatch, bind, getHook, call, newDate, setDeviceStatus,
    modifyHook, emit, ret.
  cbn [hook events dates writerRef isConnected]. fold (transmitted data).
  destruct (failure env ev (WriteBytes x (transmitted data))) as [e|];
    rewrite addLog_run;
    cbn [fst snd hook events dates deviceStatus logs lastCommandTime lastResponse];
    rewrite !callsOf_app; cbn [callsOf flat_map app]; rewrite ?app_nil_r;
    repeat split.
Qed.

Lemma sendBytes_outcome_witness :
  let w' := snd (sendBytes quietEnv [2; 83; 3; 339] connectedWorld) in
  callsOf (events w')
  = callsOf (events connectedWorld) ++ [WriteBytes (WriterOf 0) [2; 83; 3; 83]]
  /\ fst (sendBytes quietEnv [2; 83; 3; 339] connectedWorld) = Return true.
Proof.
  destruct (sendBytes_outcome quietEnv [2; 83; 3; 339] connectedWorld (WriterOf 0)
              eq_refl eq_refl) as (Hcalls & Hret & _).
  split; [exact Hcalls | exact Hret].
Defined.

End Sending.

(** ** More on connecting *)

Ltac hook_simpl :=
  cbn [fst snd hook events dates readerRef writerRef portRef isSupported isConnected
       isConnecting deviceStatus logs connected portName lastResponse lastCommandTime
       portId readable writable negb].

Ltac unfold_hook :=
  unfold tryCatch, tryFinally, bind, getHook, requestPort, call, setReaderRef,
    setWriterRef, setPortRef, setIsConnected, setIsConnecting, setDeviceStatus,
    toast, emit, modifyHook, ret, newDate.

Ltac hook_run :=
  unfold_hook; unfold throw, messageOf, newError;
  repeat first [ rewrite addLog_run
               | progress cbv beta iota zeta
               | progress hook_simpl
               | progress cbn [isError errorMessage errorName] ].

Ltac failure_step env :=
  match goal with
  | |- context [failure env ?evs ?op] =>
      let E := fresh "E" in destruct (failure env evs op) eqn:E
  end.

Section Connecting.

(** X9.  Without Web Serial [connect] fails at once: it returns false,
    shows an error notice and touches neither the state nor the serial
    API. *)
Theorem connect_unsupported (env : Env) (options : PartialOptions) (w : World)
    (Hs : isSupported (hook w) = false) :
  connect env options w
  = (Return false,
     {| hook := hook w;
        events := events w
                  ++ [Toast ToastError (lit "WebSerial is not supported in this browser")];
        dates := dates w |}).
Proof.
  unfold connect, bind, getHook. cbv beta iota. rewrite Hs. reflexivity.
Qed.

Lemma connect_unsupported_witness :
  connect quietEnv defaultOptions (initialWorld false)
  = (Return false,
     {| hook := initialHook false;
        events := [Toast ToastError (lit "WebSerial is not supported in this browser")];
        dates := 0 |}).
Proof.
  apply (connect_unsupported quietEnv defaultOptions (initialWorld false)).
  reflexivity.
Defined.

(** X10.  On a supported and not yet connected hook [connect] never
    throws, always ends with [isConnecting] false, and its result tells
    the state: with true the hook is connected, holds the selected
    port and shows it in the device status; with false the hook is not
    connected and the device status is what it was. *)
Theorem connect_settles (env : Env) (options : PartialOptions) (w : World)
    (Hs : isSupported (hook w) = true) (Hc : isConnected (hook w) = false) :
  let w' := snd (connect env options w) in
  exists b,
    fst (connect env options w) = Return b
    /\ isConnecting (hook w') = false
    /\ isSupported (hook w') = true
    /\ isConnected (hook w') = b
    /\ if b then
         portRef (hook w') = Some (selectedPort env (events w))
         /\ connected (deviceStatus (hook w')) = true
         /\ portName (deviceStatus (hook w')) = Some (lit "Arduino Device")
       else deviceStatus (hook w') = deviceStatus (hook w).
Proof.
  destruct w as [[s c g st lg p r x] ev d]. cbn [hook isSupported isConnected] in Hs, Hc.
  subst s c. intros w'. subst w'.
  unfold connect. unfold_hook. hook_simpl.
  destruct (selectedPort env ev) as [id rd wr] eqn:Eport.
  destruct rd, wr; hook_simpl;
    repeat (failure_step env; hook_simpl);
    rewrite ?addLog_run; hook_simpl;
    repeat match goal with
           | |- context [if ?b then _ else _] => destruct b; hook_simpl
           end;
    eexists; (split; [reflexivity|]); hook_simpl; repeat split.
Qed.

Lemma connect_settles_witness :
  exists b,
    fst (connect quietEnv defaultOptions freshWorld) = Return b
    /\ isConnecting (hook connectedWorld) = false
    /\ isSupported (hook connectedWorld) = true
    /\ isConnected (hook connectedWorld) = b
    /\ if b then
         portRef (hook connectedWorld) = Some (selectedPort quietEnv (events freshWorld))
         /\ connected (deviceStatus (hook connectedWorld)) = true
         /\ portName (deviceStatus (hook connectedWorld)) = Some (lit "Arduino Device")
       else deviceStatus (hook connectedWorld) = deviceStatus (hook freshWorld).
Proof.
  apply (connect_settles quietEnv defaultOptions freshWorld); reflexivity.
Defined.

End Connecting.

Section ConnectFailures.

(** X11.  When the request for a port fails, [connect] returns false,
    holds no new handle and logs the failure; it shows an error notice
    unless the message contains [No port selected], which is what the
    browser says when the user closes the chooser: a cancelled choice
    stays silent. *)
Theorem connect_cancelled (env : Env) (options : PartialOptions) (w : World)
    (e : Thrown)
    (Hs : isSupported (hook w) = true) (Hc : isConnected (hook w) = false)
    (Hreq : failure env (events w) RequestPort = Some e) :
  let w' := snd (connect env options w) in
  fst (connect env options w) = Return false
  /\ events w'
     = events w ++ [Call RequestPort; ConsoleError (lit "Failed to connect:")]
         ++ (if includes (messageOf e) (lit "No port selected") then []
             else [Toast ToastError (lit "Failed to connect: " ++ messageOf e)])
  /\ portRef (hook w') = portRef (hook w)
  /\ readerRef (hook w') = readerRef (hook w)
  /\ writerRef (hook w') = writerRef (hook w)
  /\ logs (hook w')
     = logsAfter (logs (hook w))
         (stampedLines env (dates w) [lit "Connection failed: " ++ messageOf e]).
Proof.
  destruct w as [[s c g st lg p r x] ev d].
  cbn [hook events isSupported isConnected] in Hs, Hc, Hreq.
  subst s c. intros w'. subst w'.
  unfold connect. unfold_hook. hook_simpl. rewrite Hreq.
  rewrite addLog_run. hook_simpl.
  destruct (includes (messageOf e) (lit "No port selected")); hook_simpl;
    rewrite <- ?app_assoc; cbn [app]; repeat split.
Qed.

Lemma connect_cancelled_witness :
  let w' := snd (connect userCancels defaultOptions freshWorld) in
  fst (connect userCancels defaultOptions freshWorld) = Return false
  /\ events w' = [Call RequestPort; ConsoleError (lit "Failed to connect:")].
Proof.
  destruct (connect_cancelled userCancels defaultOptions freshWorld
              {| isError := true; errorName := lit "NotFoundError";
                 errorMessage := lit "No port selected by the user." |}
              eq_refl eq_refl eq_refl) as (Hr & He & _).
  split; [exact Hr | exact He].
Defined.

Lemma callsUntilFailure_calm (env : Env) (ops : list SerialOp) :
  calm env -> forall evs, callsUntilFailure env evs ops = (ops, None).
Proof.
  intros Hcalm. induction ops as [|op ops IH]; intros evs; cbn [callsUntilFailure].
  - reflexivity.
  - now rewrite Hcalm, IH.
Qed.

(** Where no call fails, [disconnect] runs the whole teardown. *)
Lemma disconnect_calm (env : Env) (w : World) :
  calm env ->
  fst (disconnect env w) = Return tt
  /\ callsOf (events (snd (disconnect env w)))
     = callsOf (events w) ++ teardownCalls (hook w)
  /\ hook (snd (disconnect env w)) = tornDown env w.
Proof.
  intros Hcalm. destruct w as [[s c g st lg p r x] ev d].
  unfold disconnect. unfold_hook. unfold teardownCalls, tornDown. hook_simpl.
  destruct r as [r|]; destruct x as [x|]; destruct p as [p|]; hook_simpl;
    rewrite ?Hcalm; hook_simpl; rewrite ?Hcalm; hook_simpl;
    rewrite ?Hcalm; hook_simpl; rewrite ?Hcalm; hook_simpl;
    rewrite addLog_run; hook_simpl;
    rewrite ?callsOf_app; cbn [callsOf flat_map app];
    rewrite ?app_nil_r, <- ?app_assoc; cbn [app]; repeat split.
Qed.

(** X12.  When the port opens and the writer is acquired but acquiring
    the reader fails, [connect] returns false and the hook is not
    connected, yet it keeps the port and the writer.  A later
    [disconnect] in which nothing fails closes that writer and that
    port and leaves the hook without handles. *)
Theorem connect_reader_fails (env env' : Env) (options : PartialOptions) (w : World)
    (e : Thrown) (id : nat)
    (Hs : isSupported (hook w) = true) (Hidle : idle (hook w))
    (Hport : selectedPort env (events w)
             = {| portId := id; readable := true; writable := true |})
    (Hreq : failure env (events w) RequestPort = None)
    (Hopen : failure env (events w ++ [Call RequestPort])
               (OpenPort id (mergeOptions DEFAULT_SERIAL_OPTIONS options)) = None)
    (Hwr : failure env
             ((events w ++ [Call RequestPort])
                ++ [Call (OpenPort id (mergeOptions DEFAULT_SERIAL_OPTIONS options))])
             (GetWriter id) = None)
    (Hrd : failure env
             (((events w ++ [Call RequestPort])
                 ++ [Call (OpenPort id (mergeOptions DEFAULT_SERIAL_OPTIONS options))])
                ++ [Call (GetWriter id)])
             (GetReader id) = Some e)
    (Hcalm : calm env') :
  let w1 := snd (connect env options w) in
  let w2 := snd (disconnect env' w1) in
  fst (connect env options w) = Return false
  /\ isConnected (hook w1) = false
  /\ portRef (hook w1) = Some {| portId := id; readable := true; writable := true |}
  /\ writerRef (hook w1) = Some (WriterOf id)
  /\ readerRef (hook w1) = None
  /\ callsOf (events w2)
     = callsOf (events w1) ++ [CloseWriter (WriterOf id); ClosePort id]
  /\ idle (hook w2).
Proof.
  destruct w as [[s c g st lg p r x] ev d].
  destruct Hidle as (Hc & Hp & Hr & Hx). intros w1 w2.
  cbn [hook events isSupported isConnected portRef readerRef writerRef]
    in Hs, Hc, Hp, Hr, Hx, Hport, Hreq, Hopen, Hwr, Hrd.
  subst s c p r x.
  assert (E1 : fst (connect env options {| hook := mkHook true false g st lg None None None;
                                           events := ev; dates := d |}) = Return false
               /\ isConnected (hook w1) = false
               /\ portRef (hook w1)
                  = Some {| portId := id; readable := true; writable := true |}
               /\ writerRef (hook w1) = Some (WriterOf id)
               /\ readerRef (hook w1) = None).
  { subst w1. unfold connect. unfold_hook. hook_simpl.
    rewrite Hreq. hook_simpl. rewrite Hport. hook_simpl.
    rewrite Hopen. hook_simpl. rewrite Hwr. hook_simpl. rewrite Hrd. hook_simpl.
    rewrite addLog_run. hook_simpl.
    destruct (includes _ _); hook_simpl; repeat split. }
  destruct E1 as (R1 & R2 & R3 & R4 & R5).
  destruct (disconnect_calm env' w1 Hcalm) as (_ & D2 & D3). fold w2 in D2, D3.
  repeat split; try assumption.
  - rewrite D2. unfold teardownCalls. rewrite R3, R4, R5. reflexivity.
  - rewrite D3. reflexivity.
  - rewrite D3. reflexivity.
  - rewrite D3. reflexivity.
  - rewrite D3. reflexivity.
Qed.

End ConnectFailures.

Lemma quietEnv_calm : calm quietEnv.
Proof. intros evs op. reflexivity. Qed.

Lemma connect_reader_fails_witness :
  let w1 := snd (connect readerFails defaultOptions freshWorld) in
  let w2 := snd (disconnect quietEnv w1) in
  fst (connect readerFails defaultOptions freshWorld) = Return false
  /\ isConnected (hook w1) = false
  /\ portRef (hook w1) = Some {| portId := 0; readable := true; writable := true |}
  /\ writerRef (hook w1) = Some (WriterOf 0)
  /\ readerRef (hook w1) = None
  /\ callsOf (events w2)
     = callsOf (events w1) ++ [CloseWriter (WriterOf 0); ClosePort 0]
  /\ idle (hook w2).
Proof.
  apply (connect_reader_fails readerFails quietEnv defaultOptions freshWorld
           {| isError := true; errorName := lit "TypeError";
              errorMessage := lit "stream is locked" |} 0);
    try reflexivity.
  - repeat split.
  - exact quietEnv_calm.
Defined.

Section RoundTrip.

(** X13.  Where no call fails, [connect] on a supported hook without
    handles followed by [disconnect] gives every handle back: the
    calls are request, open, the writer and the reader that the port
    offers, then cancel and release for the reader, close for the
    writer and close for the port; afterwards the hook holds nothing,
    is not connected and shows the cleared device status. *)
Theorem connect_disconnect (env : Env) (options : PartialOptions) (w : World)
    (Hcalm : calm env)
    (Hs : isSupported (hook w) = true) (Hidle : idle (hook w)) :
  let port := selectedPort env (events w) in
  let id := portId port in
  let w1 := snd (connect env options w) in
  let w2 := snd (disconnect env w1) in
  fst (connect env options w) = Return true
  /\ fst (disconnect env w1) = Return tt
  /\ callsOf (events w2)
     = callsOf (events w)
         ++ [RequestPort; OpenPort id (mergeOptions DEFAULT_SERIAL_OPTIONS options)]
         ++ (if writable port then [GetWriter id] else [])
         ++ (if readable port then [GetReader id] else [])
         ++ (if readable port then [CancelReader (ReaderOf id); ReleaseLock (ReaderOf id)]
             else [])
         ++ (if writable port then [CloseWriter (WriterOf id)] else [])
         ++ [ClosePort id]
  /\ idle (hook w2)
  /\ isConnecting (hook w2) = false
  /\ deviceStatus (hook w2) = initialStatus.
Proof.
  destruct w as [[s c g st lg p r x] ev d].
  destruct Hidle as (Hc & Hp & Hr & Hx). intros port id w1 w2.
  cbn [hook events isSupported isConnected portRef readerRef writerRef]
    in Hs, Hc, Hp, Hr, Hx, port.
  subst s c p r x.
  assert (E1 : connect env options {| hook := mkHook true false g st lg None None None;
                                      events := ev; dates := d |}
               = (Return true,
                  {| hook :=
                       mkHook true true false
                         (mkStatus true (Some (lit "Arduino Device"))
                            (lastResponse st) (lastCommandTime st))
                         (logsAfter lg (stampedLines env d [lit "Connected to serial device"]))
                         (Some port)
                         (if readable port then Some (ReaderOf id) else None)
                         (if writable port then Some (WriterOf id) else None);
                     events :=
                       ev ++ [Call RequestPort;
                              Call (OpenPort id (mergeOptions DEFAULT_SERIAL_OPTIONS options))]
                         ++ (if writable port then [Call (GetWriter id)] else [])
                         ++ (if readable port then [Call (GetReader id); StartReadLoop]
                             else [])
                         ++ [Toast ToastSuccess (lit "Connected to Arduino")];
                     dates := S d |})).
  { unfold connect. unfold_hook. hook_simpl. rewrite Hcalm. hook_simpl.
    fold port. rewrite Hcalm. hook_simpl. fold id.
    destruct (writable port), (readable port); hook_simpl;
      rewrite ?Hcalm; hook_simpl; rewrite addLog_run; hook_simpl;
      rewrite <- ?app_assoc; reflexivity. }
  destruct (disconnect_calm env w1 Hcalm) as (D1 & D2 & D3). fold w2 in D2, D3.
  assert (H1 : w1 = snd (connect env options
                           {| hook := mkHook true false g st lg None None None;
                              events := ev; dates := d |})) by reflexivity.
  rewrite E1 in H1. cbn [snd] in H1.
  rewrite E1. cbn [fst].
  split; [reflexivity|]. split; [exact D1|].
  split.
  - rewrite D2, H1. unfold teardownCalls. hook_simpl.
    rewrite !callsOf_app.
    destruct (writable port), (readable port); cbn [callsOf flat_map app portId];
      rewrite ?app_nil_r, <- ?app_assoc; reflexivity.
  - rewrite D3. repeat split.
    rewrite H1. reflexivity.
Qed.

End RoundTrip.

Lemma connect_disconnect_witness :
  let w2 := snd (disconnect quietEnv connectedWorld) in
  callsOf (events w2)
  = [RequestPort; OpenPort 0 DEFAULT_SERIAL_OPTIONS; GetWriter 0; GetReader 0;
     CancelReader (ReaderOf 0); ReleaseLock (ReaderOf 0); CloseWriter (WriterOf 0);
     ClosePort 0]
  /\ idle (hook w2)
  /\ isConnecting (hook w2) = false
  /\ deviceStatus (hook w2) = initialStatus.
Proof.
  destruct (connect_disconnect quietEnv defaultOptions freshWorld quietEnv_calm eq_refl)
    as (_ & _ & H3 & H4 & H5 & H6).
  - repeat split.
  - repeat split; assumption.
Defined.

(** ** What every operation keeps *)

Section Kept.

Variable P : Hook -> Prop.

Lemma kept_ret {A} (a : A) : keeps P (ret a).
Proof. intros w H. exact H. Qed.

Lemma kept_throw {A} (e : Thrown) : keeps P (@throw A e).
Proof. intros w H. exact H. Qed.

Lemma kept_bind {A B} (m : M A) (k : A -> M B) :
  keeps P m -> (forall a, keeps P (k a)) -> keeps P (bind m k).
Proof.
  intros Hm Hk w H. unfold bind. specialize (Hm w H).
  destruct (m w) as [[a|e] w']; cbn [snd] in *; [now apply Hk | exact Hm].
Qed.

Lemma kept_tryCatch {A} (body : M A) (handler : Thrown -> M A) :
  keeps P body -> (forall e, keeps P (handler e)) -> keeps P (tryCatch body handler).
Proof.
  intros Hm Hk w H. unfold tryCatch. specialize (Hm w H).
  destruct (body w) as [[a|e] w']; cbn [snd] in *; [exact Hm | now apply Hk].
Qed.

Lemma kept_tryFinally {A} (body : M A) (cleanup : M unit) :
  keeps P body -> keeps P cleanup -> keeps P (tryFinally body cleanup).
Proof.
  intros Hm Hc w H. unfold tryFinally. specialize (Hm w H).
  destruct (body w) as [c w']; cbn [snd] in *. specialize (Hc w' Hm).
  destruct (cleanup w') as [[a|e] w'']; exact Hc.
Qed.

Lemma kept_getHook : keeps P getHook.
Proof. intros w H. exact H. Qed.

Lemma kept_emit (e : Event) : keeps P (emit e).
Proof. intros w H. exact H. Qed.

Lemma kept_call (env : Env) (op : SerialOp) : keeps P (call env op).
Proof. intros w H. unfold call. destruct (failure env _ _); exact H. Qed.

Lemma kept_requestPort (env : Env) : keeps P (requestPort env).
Proof.
  intros w H. unfold requestPort, call. destruct (failure env _ _); exact H.
Qed.

Lemma kept_newDate (env : Env) : keeps P (newDate env).
Proof. intros w H. exact H. Qed.

Lemma kept_modify (f : Hook -> Hook) :
  (forall h, P h -> P (f h)) -> keeps P (modifyHook f).
Proof. intros Hf w H. apply Hf, H. Qed.

Lemma kept_forEach {A} (xs : list A) (body : A -> M unit) :
  (forall x, keeps P (body x)) -> keeps P (forEach xs body).
Proof.
  intros Hb. induction xs as [|x xs IH]; cbn [forEach].
  - apply kept_ret.
  - apply kept_bind; [apply Hb | intros _; exact IH].
Qed.

End Kept.

(** A walk through the syntax of a computation; [solver] shows that a
    change of the hook keeps the property. *)
Ltac kept_walk solver :=
  repeat match goal with
         | |- keeps _ (bind _ _) => apply kept_bind; [|intro]
         | |- keeps _ (tryCatch _ _) => apply kept_tryCatch; [|intro]
         | |- keeps _ (tryFinally _ _) => apply kept_tryFinally
         | |- keeps _ (forEach _ _) => apply kept_forEach; intro
         | |- keeps _ (ret _) => apply kept_ret
         | |- keeps _ (throw _) => apply kept_throw
         | |- keeps _ getHook => apply kept_getHook
         | |- keeps _ (emit _) => apply kept_emit
         | |- keeps _ (toast _ _) => apply kept_emit
         | |- keeps _ (call _ _) => apply kept_call
         | |- keeps _ (requestPort _) => apply kept_requestPort
         | |- keeps _ (newDate _) => apply kept_newDate
         | |- keeps _ (setIsConnected _) => unfold setIsConnected
         | |- keeps _ (setIsConnecting _) => unfold setIsConnecting
         | |- keeps _ (setPortRef _) => unfold setPortRef
         | |- keeps _ (setReaderRef _) => unfold setReaderRef
         | |- keeps _ (setWriterRef _) => unfold setWriterRef
         | |- keeps _ (addLog _ _) => unfold addLog
         | |- keeps _ (setLogs _) => unfold setLogs
         | |- keeps _ clearLogs => unfold clearLogs
         | |- keeps _ (setDeviceStatus _) => unfold setDeviceStatus
         | |- keeps _ (modifyHook _) => apply kept_modify; solver
         | |- keeps _ (let _ := _ in _) => cbv zeta
         | |- keeps _ (if ?b then _ else _) => destruct b
         | |- keeps _ (match ?x with _ => _ end) => destruct x
         end.

Ltac fields_solver :=
  let h := fresh "h" in let H := fresh "H" in
  intros h H; cbv beta in H |- *; rewrite <- H; reflexivity.

Section Fields.

Variable env : Env.
Variable invoke : ArduinoCommand -> Client.InvokeResult.
Variable k : bool * bool * bool * bool * option jsstring * option SerialPort
             * option Reader * option Writer.

Lemma fields_addLog (message : jsstring) : keeps (fun h => connFields h = k) (addLog env message).
Proof. kept_walk fields_solver. Qed.

Lemma fields_clearLogs : keeps (fun h => connFields h = k) clearLogs.
Proof. kept_walk fields_solver. Qed.

Lemma fields_sendBytes (data : list Z) : keeps (fun h => connFields h = k) (sendBytes env data).
Proof. unfold sendBytes. kept_walk fields_solver. Qed.

Lemma fields_processChunk (buffer decoded : jsstring) :
  keeps (fun h => connFields h = k) (processChunk env buffer decoded).
Proof. unfold processChunk. kept_walk fields_solver. Qed.

Lemma fields_readChunks (reads : list ReadResult) :
  forall buffer, keeps (fun h => connFields h = k) (readChunks env reads buffer).
Proof.
  induction reads as [|r reads IH]; intros buffer; cbn [readChunks].
  - apply kept_ret.
  - destruct r; [|apply kept_ret | apply kept_throw].
    apply kept_bind; [apply fields_processChunk | intro; apply IH].
Qed.

Lemma fields_readLoop (reads : list ReadResult) : keeps (fun h => connFields h = k) (readLoop env reads).
Proof.
  unfold readLoop.
  apply kept_bind; [apply kept_getHook | intros h].
  destruct (readerRef h); [|apply kept_ret].
  apply kept_tryCatch.
  - apply kept_bind; [apply fields_readChunks | intro; apply kept_ret].
  - intro. kept_walk fields_solver.
Qed.

Lemma fields_sendCommand (c : ArduinoCommand) : keeps (fun h => connFields h = k) (sendCommand env invoke c).
Proof.
  unfold sendCommand. cbv zeta.
  apply kept_tryCatch; [|intro; kept_walk fields_solver].
  apply kept_bind; [kept_walk fields_solver | intros _].
  destruct (Client.error (invoke c)); [apply kept_throw|].
  destruct (Client.data (invoke c)) as [d|]; [|apply kept_throw].
  destruct (Client.success d); [|apply kept_throw].
  apply kept_bind; [kept_walk fields_solver | intros _].
  apply kept_bind; [apply kept_getHook | intros h].
  apply kept_bind; [|intro; apply kept_ret].
  destruct (isConnected h).
  - apply kept_bind; [apply fields_sendBytes | intros [|]]; kept_walk fields_solver.
  - kept_walk fields_solver.
Qed.

End Fields.

Ltac consistent_close :=
  unfold consistent; hook_simpl;
  repeat match goal with
         | |- _ /\ _ => split
         | |- _ -> _ => intro
         | |- Some _ <> None => discriminate
         | |- _ => first [reflexivity | assumption | congruence | tauto]
         end.

Ltac same_solver :=
  let h := fresh "h" in let H := fresh "H" in
  intros h H; exact H.

Ltac bound_solver :=
  let h := fresh "h" in let H := fresh "H" in
  intros h H; cbv beta in H |- *; cbn [logs];
  first [ exact H
        | rewrite logsAfter_one; apply logsAfter_bounded; exact H
        | cbn [List.length]; lia ].

Section Consistency.

Variable env : Env.
Variable invoke : ArduinoCommand -> Client.InvokeResult.

Lemma consistent_connect (options : PartialOptions) (w : World) :
  consistent (hook w) -> consistent (hook (snd (connect env options w))).
Proof.
  destruct w as [[s c g [cn pn lr lt] lg p r x] ev d].
  unfold consistent at 1. hook_simpl. intros (Hg & Hcn & Hpn & Hcp & Hrp & Hxp).
  subst g cn.
  unfold connect. unfold_hook. hook_simpl.
  destruct s; hook_simpl; [|consistent_close].
  destruct c; hook_simpl; [consistent_close|].
  destruct (selectedPort env ev) as [id rd wr] eqn:Eport.
  destruct rd, wr; hook_simpl;
    repeat (failure_step env; hook_simpl);
    rewrite ?addLog_run; hook_simpl;
    repeat match goal with
           | |- context [if ?b then _ else _] => destruct b; hook_simpl
           end;
    consistent_close.
Qed.

Lemma consistent_disconnect (w : World) :
  consistent (hook w) -> consistent (hook (snd (disconnect env w))).
Proof.
  destruct w as [[s c g [cn pn lr lt] lg p r x] ev d].
  unfold consistent at 1. hook_simpl. intros (Hg & Hcn & Hpn & Hcp & Hrp & Hxp).
  subst g cn.
  unfold disconnect. unfold_hook. hook_simpl.
  destruct r as [r|]; destruct x as [x|]; destruct p as [p|]; hook_simpl;
    repeat (failure_step env; hook_simpl);
    rewrite ?addLog_run; hook_simpl;
    consistent_close.
Qed.

Lemma consistent_fields (h h' : Hook) :
  connFields h' = connFields h -> consistent h -> consistent h'.
Proof.
  unfold connFields. intros [= E1 E2 E3 E4 E5 E6 E7 E8].
  unfold consistent. now rewrite E2, E3, E4, E5, E6, E7, E8.
Qed.

Lemma consistent_kept {A} (m : M A) (w : World) :
  keeps (fun h => connFields h = connFields (hook w)) m ->
  consistent (hook w) -> consistent (hook (snd (m w))).
Proof.
  intros Hk Hc. apply (consistent_fields (hook w)); [|exact Hc].
  apply (Hk w). reflexivity.
Qed.

Lemma consistent_run (op : Operation) (w : World) :
  consistent (hook w) -> consistent (hook (run env op w)).
Proof.
  destruct op; cbn [run].
  - apply consistent_connect.
  - apply consistent_disconnect.
  - apply consistent_kept, fields_readLoop.
  - apply consistent_kept, fields_sendBytes.
  - apply consistent_kept, fields_addLog.
  - apply consistent_kept, fields_clearLogs.
Qed.

Lemma consistent_step (s : Step) (w : World) :
  consistent (hook w) -> consistent (hook (step env invoke s w)).
Proof.
  destruct s; cbn [step]; [apply consistent_run | ..];
    apply consistent_kept, fields_sendCommand.
Qed.

Lemma supported_connect (b : bool) (options : PartialOptions) :
  keeps (fun h => isSupported h = b) (connect env options).
Proof. unfold connect. kept_walk same_solver. Qed.

Lemma supported_disconnect (b : bool) : keeps (fun h => isSupported h = b) (disconnect env).
Proof. unfold disconnect. kept_walk same_solver. Qed.

Lemma supported_step (s : Step) (w : World) :
  isSupported (hook (step env invoke s w)) = isSupported (hook w).
Proof.
  assert (F : forall A (m : M A),
             keeps (fun h => connFields h = connFields (hook w)) m ->
             isSupported (hook (snd (m w))) = isSupported (hook w)).
  { intros A m Hk. specialize (Hk w eq_refl). cbv beta in Hk.
    unfold connFields in Hk. now injection Hk. }
  destruct s as [op| | | | |]; cbn [step]; try (apply F, fields_sendCommand).
  destruct op; cbn [run].
  - now apply (supported_connect (isSupported (hook w)) options w).
  - now apply (supported_disconnect (isSupported (hook w)) w).
  - apply F, fields_readLoop.
  - apply F, fields_sendBytes.
  - apply F, fields_addLog.
  - apply F, fields_clearLogs.
Qed.

Lemma bound_sendBytes (data : list Z) :
  keeps (fun h => (List.length (logs h) <= 100)%nat) (sendBytes env data).
Proof. unfold sendBytes. kept_walk bound_solver. Qed.

Lemma bound_sendCommand (c : ArduinoCommand) :
  keeps (fun h => (List.length (logs h) <= 100)%nat) (sendCommand env invoke c).
Proof.
  unfold sendCommand. cbv zeta.
  apply kept_tryCatch; [|intro; kept_walk bound_solver].
  apply kept_bind; [kept_walk bound_solver | intros _].
  destruct (Client.error (invoke c)); [apply kept_throw|].
  destruct (Client.data (invoke c)) as [d|]; [|apply kept_throw].
  destruct (Client.success d); [|apply kept_throw].
  apply kept_bind; [kept_walk bound_solver | intros _].
  apply kept_bind; [apply kept_getHook | intros h].
  apply kept_bind; [|intro; apply kept_ret].
  destruct (isConnected h).
  - apply kept_bind; [apply bound_sendBytes | intros [|]]; kept_walk bound_solver.
  - kept_walk bound_solver.
Qed.

Lemma bounded_step (s : Step) (w : World) :
  bounded w -> bounded (step env invoke s w).
Proof.
  destruct s; cbn [step]; [apply run_bounded | ..]; apply bound_sendCommand.
Qed.

(** X14.  Whatever a page does with the hook from its first render on,
    one operation after the other, in any order and whatever fails,
    between two operations the hook is consistent: [isConnecting] is false; the device status says
    connected exactly when [isConnected] does, and names the device
    exactly then; a connected hook holds a port; a reader or a writer is
    never held without a port.  [isSupported] never changes and the log
    never exceeds 100 lines. *)
Theorem hook_consistent (supported : bool) (l : list Step) :
  let h := hook (steps env invoke l (initialWorld supported)) in
  consistent h
  /\ isSupported h = supported
  /\ (List.length (logs h) <= 100)%nat.
Proof.
  assert (G : forall w,
             consistent (hook w) /\ isSupported (hook w) = supported /\ bounded w ->
             consistent (hook (steps env invoke l w))
             /\ isSupported (hook (steps env invoke l w)) = supported
             /\ bounded (steps env invoke l w)).
  { unfold steps. induction l as [|s l IH]; intros w H; cbn [fold_left]; [exact H|].
    apply IH. destruct H as (H1 & H2 & H3).
    split; [now apply consistent_step|].
    split; [now rewrite supported_step | now apply bounded_step]. }
  apply G. split; [|split].
  - unfold consistent. cbn. repeat split; intros; congruence.
  - reflexivity.
  - unfold bounded. cbn. lia.
Qed.

End Consistency.

(** ** More on the read loop *)

Section Stream.

Variable env : Env.

Lemma processChunk_run (buffer decoded : jsstring) (w : World) :
  processChunk env buffer decoded w
  = (Return (carryOver (split (buffer ++ decoded))),
     afterMessages env (completeMessages (split (buffer ++ decoded))) w).
Proof.
  unfold processChunk.
  rewrite (pop_nonempty (split (buffer ++ decoded)) [] (split_nonempty _)).
  rewrite orElse_some. unfold bind at 1. rewrite (lines_run env). reflexivity.
Qed.

Lemma removelast_cons {A : Type} (a : A) (l : list A) :
  l <> [] -> removelast (a :: l) = a :: removelast l.
Proof. destruct l; [congruence | reflexivity]. Qed.

Lemma last_cons {A : Type} (a d : A) (l : list A) :
  l <> [] -> last (a :: l) d = last l d.
Proof. destruct l; [congruence | reflexivity]. Qed.

Lemma last_app_nonempty {A : Type} (d : A) (a b : list A) :
  b <> [] -> last (a ++ b) d = last b d.
Proof.
  intros Hb. induction a as [|x a IH]; [reflexivity|].
  cbn [app]. rewrite last_cons; [exact IH|].
  destruct a; cbn [app]; [exact Hb | discriminate].
Qed.

(** The segments of a text that arrives in two parts. *)
Lemma split_app (x y : jsstring) :
  split (x ++ y) = removelast (split x) ++ split (last (split x) [] ++ y).
Proof.
  induction x as [|u x IH]; [reflexivity|].
  cbn [app split]. destruct (isTerminator u) eqn:Eu.
  - rewrite IH, removelast_cons, last_cons by apply split_nonempty. reflexivity.
  - rewrite IH. destruct (split x) as [|seg segs] eqn:Ex.
    { now destruct (split_nonempty x). }
    destruct segs as [|seg' segs].
    + cbn [removelast last app split]. rewrite Eu. reflexivity.
    + rewrite (removelast_cons seg) by discriminate.
      rewrite (removelast_cons (u :: seg)) by discriminate.
      rewrite (last_cons seg) by discriminate.
      rewrite (last_cons (u :: seg)) by discriminate.
      reflexivity.
Qed.

Lemma messages_app (x y : jsstring) :
  completeMessages (split (x ++ y))
  = completeMessages (split x)
      ++ completeMessages (split (carryOver (split x) ++ y))
  /\ carryOver (split (x ++ y)) = carryOver (split (carryOver (split x) ++ y)).
Proof.
  unfold completeMessages, carryOver. rewrite split_app.
  split.
  - rewrite removelast_app by apply split_nonempty.
    now rewrite map_app, filter_app.
  - apply last_app_nonempty, split_nonempty.
Qed.

(** Handling a text in two chunks is handling it in one. *)
Lemma processChunk_app (buffer a b : jsstring) (w : World) :
  bind (processChunk env buffer a) (fun carry => processChunk env carry b) w
  = processChunk env buffer (a ++ b) w.
Proof.
  unfold bind. rewrite !processChunk_run, afterMessages_app.
  rewrite app_assoc.
  destruct (messages_app (buffer ++ a) b) as [-> ->]. reflexivity.
Qed.

Lemma split_noTerminator (s : jsstring) : noTerminator s -> split s = [s].
Proof.
  induction 1 as [|u s Hu Hs IH]; [reflexivity|].
  cbn [split]. now rewrite Hu, IH.
Qed.

Lemma split_segments (s : jsstring) : Forall noTerminator (split s).
Proof.
  induction s as [|u s IH]; cbn [split].
  - repeat constructor.
  - destruct (isTerminator u) eqn:Eu; [constructor; [constructor | exact IH]|].
    destruct (split s) as [|seg segs]; [repeat constructor; exact Eu|].
    inversion IH as [|? ? Hseg Hsegs]; subst.
    constructor; [constructor; assumption | assumption].
Qed.

Lemma carryOver_noTerminator (s : jsstring) : noTerminator (carryOver (split s)).
Proof.
  unfold carryOver.
  pose proof (split_segments s) as H. pose proof (split_nonempty s) as Hne.
  rewrite (app_removelast_last [] Hne) in H.
  apply Forall_app in H. destruct H as [_ H]. now inversion H.
Qed.

Lemma readChunks_whole (texts : list jsstring) :
  forall buffer w,
    noTerminator buffer ->
    readChunks env (chunksOf texts) buffer w
    = processChunk env buffer (List.concat texts) w.
Proof.
  induction texts as [|t texts IH]; intros buffer w0 Hb.
  - cbn [chunksOf List.map readChunks List.concat]. rewrite processChunk_run.
    rewrite app_nil_r. unfold completeMessages, carryOver.
    rewrite (split_noTerminator _ Hb).
    cbn [last removelast List.map filter]. now rewrite afterMessages_nil.
  - cbn [chunksOf List.map readChunks List.concat].
    rewrite <- processChunk_app. unfold bind.
    rewrite processChunk_run. apply IH. apply carryOver_noTerminator.
Qed.

(** X15.  Chunk boundaries do not matter: reading a stream chunk by
    chunk logs the same messages, ends in the same state and leaves the
    same carry-over as handling the whole text in one chunk. *)
Theorem stream_chunking (texts : list jsstring) (w : World) :
  readChunks env (chunksOf texts) [] w = processChunk env [] (List.concat texts) w
  /\ readChunks env (chunksOf texts) [] w
     = (Return (carryOver (split (List.concat texts))),
        afterMessages env (completeMessages (split (List.concat texts))) w).
Proof.
  split; [apply readChunks_whole; constructor|].
  rewrite readChunks_whole by constructor. apply processChunk_run.
Qed.

End Stream.

Section Messages.

Lemma trimStart_suffix (s : jsstring) : exists pre, s = pre ++ trimStart s.
Proof.
  induction s as [|u s IH]; [exists []; reflexivity|].
  cbn [trimStart]. destruct (isWhiteSpace u).
  - destruct IH as [pre IH]. exists (u :: pre). cbn [app]. now rewrite <- IH.
  - exists []. reflexivity.
Qed.

Lemma trimStart_head (s : jsstring) (u : N) (r : jsstring) :
  trimStart s = u :: r -> isWhiteSpace u = false.
Proof.
  induction s as [|v s IH]; cbn [trimStart]; [discriminate|].
  destruct (isWhiteSpace v) eqn:Ev; [exact IH|].
  intros [= <- _]. exact Ev.
Qed.

Lemma trimStart_noTerminator (s : jsstring) :
  noTerminator s -> noTerminator (trimStart s).
Proof.
  intros H. destruct (trimStart_suffix s) as [pre E]. unfold noTerminator in *.
  rewrite E in H. apply Forall_app in H. tauto.
Qed.

Lemma trim_noTerminator (s : jsstring) : noTerminator s -> noTerminator (trim s).
Proof.
  intros H. unfold trim, noTerminator.
  apply Forall_rev, trimStart_noTerminator, Forall_rev, trimStart_noTerminator, H.
Qed.

Lemma trim_trimmed (s : jsstring) : trim s <> [] -> trimmed (trim s).
Proof.
  intros Hne. split; [exact Hne|]. unfold trim in *. split.
  - intros u r E.
    destruct (trimStart_suffix (rev (trimStart s))) as [pre Hpre].
    apply (f_equal (@rev N)) in Hpre.
    rewrite rev_involutive, rev_app_distr, E in Hpre. cbn [app] in Hpre.
    exact (trimStart_head s u _ Hpre).
  - intros u r E. rewrite rev_involutive in E.
    exact (trimStart_head _ u r E).
Qed.

Lemma completeMessages_clean (segments : list jsstring) :
  Forall noTerminator segments ->
  Forall (fun m => trimmed m /\ noTerminator m) (completeMessages segments).
Proof.
  intros H. unfold completeMessages. apply Forall_forall. intros m Hm.
  apply filter_In in Hm. destruct Hm as [Hin Hne].
  apply in_map_iff in Hin. destruct Hin as (seg & <- & Hseg).
  assert (Hs : noTerminator seg).
  { apply (proj1 (Forall_forall _ _) H).
    destruct segments as [|x l]; [contradiction|].
    rewrite (app_removelast_last [] (l := x :: l)) by discriminate.
    apply in_or_app. now left. }
  split; [|now apply trim_noTerminator].
  apply trim_trimmed. destruct (trim seg); [discriminate | discriminate].
Qed.

(** X16.  What one turn of the read loop hands on is clean: every
    message it logs is not empty, has no white space at either end and
    contains neither newline nor 0x03, and the carry-over it keeps
    contains neither newline nor 0x03. *)
Theorem messages_clean (env : Env) (buffer decoded : jsstring) (w : World) :
  exists carry messages,
    processChunk env buffer decoded w = (Return carry, afterMessages env messages w)
    /\ noTerminator carry
    /\ Forall (fun m => trimmed m /\ noTerminator m) messages.
Proof.
  exists (carryOver (split (buffer ++ decoded))),
         (completeMessages (split (buffer ++ decoded))).
  split; [apply processChunk_run|].
  split; [apply carryOver_noTerminator|].
  apply completeMessages_clean, split_segments.
Qed.

(** X17.  Text without newline and 0x03 is only kept: when neither the
    carry-over nor the chunk has a terminator, the turn logs nothing,
    changes nothing in the hook and returns the carry-over with the
    chunk appended, however long the two together are. *)
Theorem chunk_without_terminator (env : Env) (buffer decoded : jsstring) (w : World)
    (Hb : noTerminator buffer) (Hd : noTerminator decoded) :
  processChunk env buffer decoded w = (Return (buffer ++ decoded), w).
Proof.
  rewrite processChunk_run. unfold completeMessages, carryOver.
  rewrite split_noTerminator by (apply Forall_app; split; assumption).
  cbn [last removelast List.map filter]. now rewrite afterMessages_nil.
Qed.

End Messages.

Lemma chunk_without_terminator_witness :
  processChunk quietEnv (lit "OK:PLAY") (lit "ING") connectedWorld
  = (Return (lit "OK:PLAY" ++ lit "ING"), connectedWorld).
Proof.
  apply (chunk_without_terminator quietEnv (lit "OK:PLAY") (lit "ING") connectedWorld);
    unfold noTerminator; repeat constructor.
Defined.

Section LoopEnd.

Variable env : Env.

Lemma readChunks_app (texts : list jsstring) (tail : list ReadResult) :
  forall buffer w,
    readChunks env (chunksOf texts ++ tail) buffer w
    = bind (readChunks env (chunksOf texts) buffer)
        (fun carry => readChunks env tail carry) w.
Proof.
  induction texts as [|t texts IH]; intros buffer w.
  - reflexivity.
  - cbn [chunksOf List.map app readChunks]. unfold bind.
    rewrite processChunk_run.
    unfold chunksOf in IH. rewrite IH. reflexivity.
Qed.

Lemma readChunks_then (texts : list jsstring) (tail : list ReadResult) (w : World) :
  readChunks env (chunksOf texts ++ tail) [] w
  = readChunks env tail (carryOver (split (List.concat texts)))
      (afterMessages env (completeMessages (split (List.concat texts))) w).
Proof.
  rewrite readChunks_app. unfold bind.
  rewrite readChunks_whole by constructor. rewrite processChunk_run. reflexivity.
Qed.

End LoopEnd.

Section LoopEnds.

Lemma readLoop_with_reader (env : Env) (reads : list ReadResult) (w : World)
    (r : Reader) :
  readerRef (hook w) = Some r ->
  readLoop env reads w
  = tryCatch
      (bind (readChunks env reads []) (fun _ => ret tt))
      (fun error =>
         if isError error && negb (str_eqb (errorName error) (lit "NetworkError")) then
           bind (emit (ConsoleError (lit "Read error:")))
             (fun _ => addLog env (lit "Read error: " ++ errorMessage error))
         else ret tt) w.
Proof.
  intros H. unfold readLoop. unfold bind at 1. unfold getHook.
  cbv beta iota. rewrite H. reflexivity.
Qed.

(** X18.  How the read loop ends, for a hook that holds a reader.  It
    never throws.  At the end of the stream, and when the reads just
    stop coming, it has logged the complete messages of the whole text
    and nothing else: the text after the last terminator is dropped
    without a trace, and reads after the end are not looked at.  A
    failed read ends it the same way; the failure is logged only when
    it is an [Error] whose name is not [NetworkError]. *)
Theorem readLoop_ends (env : Env) (texts : list jsstring) (rest : list ReadResult)
    (e : Thrown) (w : World) (Hr : readerRef (hook w) <> None) :
  let w1 := afterMessages env (completeMessages (split (List.concat texts))) w in
  let w' := snd (readLoop env (chunksOf texts ++ ReadFails e :: rest) w) in
  readLoop env (chunksOf texts) w = (Return tt, w1)
  /\ readLoop env (chunksOf texts ++ Done :: rest) w = (Return tt, w1)
  /\ fst (readLoop env (chunksOf texts ++ ReadFails e :: rest) w) = Return tt
  /\ if isError e && negb (str_eqb (errorName e) (lit "NetworkError")) then
       events w' = events w1 ++ [ConsoleError (lit "Read error:")]
       /\ logs (hook w')
          = logsAfter (logs (hook w1))
              (stampedLines env (dates w1) [lit "Read error: " ++ errorMessage e])
       /\ deviceStatus (hook w') = deviceStatus (hook w1)
     else w' = w1.
Proof.
  intros w1 w'. subst w'.
  destruct (readerRef (hook w)) as [r|] eqn:Er; [clear Hr | congruence].
  rewrite !(readLoop_with_reader env _ w r Er).
  unfold tryCatch, bind.
  rewrite !readChunks_then. rewrite (readChunks_whole env texts [] w) by constructor.
  rewrite processChunk_run. cbn [readChunks app]. fold w1.
  unfold ret, throw. cbn [fst snd].
  split; [reflexivity|]. split; [reflexivity|].
  destruct (isError e && negb (str_eqb (errorName e) (lit "NetworkError"))).
  - unfold emit. rewrite addLog_run. cbn [fst snd hook events dates logs deviceStatus].
    repeat split.
  - split; reflexivity.
Qed.

End LoopEnds.

Lemma readLoop_ends_witness :
  let w1 := afterMessages quietEnv
              (completeMessages (split (List.concat [lit "OK"; [10%N]; lit "tail"])))
              connectedWorld in
  readLoop quietEnv (chunksOf [lit "OK"; [10%N]; lit "tail"] ++ Done :: []) connectedWorld
  = (Return tt, w1)
  /\ lastResponse (deviceStatus (hook w1)) = Some (lit "OK").
Proof.
  destruct (readLoop_ends quietEnv [lit "OK"; [10%N]; lit "tail"] []
              {| isError := false; errorName := []; errorMessage := [] |}
              connectedWorld) as (_ & H & _).
  - discriminate.
  - split; [exact H | reflexivity].
Defined.

(** ** Sending commands *)

Section SendCommand.

Variable env : Env.
Variable invoke : ArduinoCommand -> Client.InvokeResult.

Lemma two_lines (prev : list jsstring) (d : nat) (a b : jsstring) :
  logsAfter (logsAfter prev (stampedLines env d [a])) (stampedLines env (S d) [b])
  = logsAfter prev (stampedLines env d [a; b]).
Proof. rewrite logsAfter_app. reflexivity. Qed.

Lemma three_lines (prev : list jsstring) (d : nat) (a b c : jsstring) :
  logsAfter (logsAfter prev (stampedLines env d [a; b]))
    (stampedLines env (S (S d)) [c])
  = logsAfter prev (stampedLines env d [a; b; c]).
Proof. rewrite logsAfter_app. reflexivity. Qed.

(** X19.  A reply with an error, without data or with data that does
    not say success stops [sendCommand] before anything goes to the
    device: it returns false, makes no call into the serial API,
    leaves the device status alone, logs the error after the line for
    the command and shows it in an error notice.  This holds whether
    the hook is connected or not. *)
Theorem sendCommand_rejected (c : ArduinoCommand) (w : World)
    (Hbad : accepted (invoke c) = false) :
  let w' := snd (sendCommand env invoke c w) in
  let message := rejection (invoke c) in
  fst (sendCommand env invoke c w) = Return false
  /\ events w'
     = events w ++ [ConsoleError (lit "Command error:");
                    Toast ToastError (lit "Command failed: " ++ message)]
  /\ deviceStatus (hook w') = deviceStatus (hook w)
  /\ logs (hook w')
     = logsAfter (logs (hook w))
         (stampedLines env (dates w)
            [lit "Formatting command: " ++ templateString (action c);
             lit "Command error: " ++ message]).
Proof.
  intros w' message. subst w' message.
  unfold accepted, rejection in *. unfold sendCommand. cbv zeta.
  destruct (Client.error (invoke c)) as [m|];
    [|destruct (Client.data (invoke c)) as [d|]; [rewrite Hbad|]];
    hook_run; rewrite two_lines, <- app_assoc; repeat split.
Qed.

(** X20.  With an accepted reply and a hook that is not connected,
    [sendCommand] only rehearses: it returns true, makes no call into
    the serial API, leaves the device status alone, logs the command,
    its description and the hex string of the reply after [Simulated],
    and shows a notice that the command is ready. *)
Theorem sendCommand_simulated (c : ArduinoCommand) (w : World)
    (d : Client.ArduinoResponse)
    (Hno : Client.error (invoke c) = None) (Hd : Client.data (invoke c) = Some d)
    (Hok : Client.success d = true) (Hc : isConnected (hook w) = false) :
  let w' := snd (sendCommand env invoke c w) in
  let text := description (Client.command d) in
  fst (sendCommand env invoke c w) = Return true
  /\ events w' = events w ++ [Toast ToastInfo (lit "Command ready: " ++ text)]
  /\ deviceStatus (hook w') = deviceStatus (hook w)
  /\ logs (hook w')
     = logsAfter (logs (hook w))
         (stampedLines env (dates w)
            [lit "Formatting command: " ++ templateString (action c);
             lit "Command: " ++ text;
             lit "[Simulated] Would send: " ++ Client.hex d]).
Proof.
  destruct w as [[s cn g st lg p r x] ev dt]. cbn [hook isConnected] in Hc. subst cn.
  intros w' text. subst w' text.
  unfold sendCommand. cbv zeta. rewrite Hno, Hd, Hok.
  hook_run. rewrite !logsAfter_app. repeat split.
Qed.

(** X21.  With an accepted reply and a connected hook that holds a
    writer, [sendCommand] makes exactly one call: a write of the bytes
    of the reply reduced modulo 256.  When the write succeeds it
    returns true, sets [lastCommandTime] and shows the description of
    the command; when the write fails it returns false, leaves the
    device status alone and logs both the failure of the write and
    that the command failed to reach the device. *)
Theorem sendCommand_connected (c : ArduinoCommand) (w : World)
    (d : Client.ArduinoResponse) (x : Writer)
    (Hno : Client.error (invoke c) = None) (Hd : Client.data (invoke c) = Some d)
    (Hok : Client.success d = true)
    (Hc : isConnected (hook w) = true) (Hx : writerRef (hook w) = Some x) :
  let w' := snd (sendCommand env invoke c w) in
  let frame := bytes (Client.command d) in
  let text := description (Client.command d) in
  callsOf (events w') = callsOf (events w) ++ [WriteBytes x (transmitted frame)]
  /\ match failure env (events w) (WriteBytes x (transmitted frame)) with
     | None =>
         fst (sendCommand env invoke c w) = Return true
         /\ events w'
            = events w ++ [Call (WriteBytes x (transmitted frame));
                           Toast ToastSuccess text]
         /\ lastCommandTime (deviceStatus (hook w'))
            = Some (dateAt env (3 + dates w))
         /\ logs (hook w')
            = logsAfter (logs (hook w))
                (stampedLines env (dates w)
                   [lit "Formatting command: " ++ templateString (action c);
                    lit "Command: " ++ text;
                    rightArrow ++ lit " " ++ hexDump frame])
     | Some e =>
         fst (sendCommand env invoke c w) = Return false
         /\ deviceStatus (hook w') = deviceStatus (hook w)
         /\ logs (hook w')
            = logsAfter (logs (hook w))
                (stampedLines env (dates w)
                   [lit "Formatting command: " ++ templateString (action c);
                    lit "Command: " ++ text;
                    lit "Send error: " ++ messageOf e;
                    lit "Command error: Failed to send to device"])
     end.
Proof.
  destruct w as [[s cn g st lg p r wr] ev dt].
  cbn [hook isConnected writerRef] in Hc, Hx. subst cn wr.
  intros w' frame text. subst w' text. hook_simpl.
  unfold sendCommand, sendBytes. cbv zeta. rewrite Hno, Hd, Hok.
  fold frame. fold (transmitted frame). hook_run.
  destruct (failure env ev (WriteBytes x (transmitted frame))) as [e|];
    hook_run; rewrite !logsAfter_app;
    rewrite !callsOf_app; cbn [callsOf flat_map app]; rewrite ?app_nil_r, <- ?app_assoc;
    repeat split.
Qed.

End SendCommand.

Lemma sendCommand_rejected_witness :
  let w' := snd (sendCommand quietEnv (invokeBridge exampleTimestamp) emptySystemPlay
                   connectedWorld) in
  fst (sendCommand quietEnv (invokeBridge exampleTimestamp) emptySystemPlay connectedWorld)
  = Return false
  /\ events w'
     = events connectedWorld
         ++ [ConsoleError (lit "Command error:");
             Toast ToastError (lit "Command failed: " ++ nonOkMessage)].
Proof.
  destruct (sendCommand_rejected quietEnv (invokeBridge exampleTimestamp)
              emptySystemPlay connectedWorld eq_refl) as (H1 & H2 & _).
  split; [exact H1 | exact H2].
Defined.

Lemma sendCommand_simulated_witness :
  let w' := snd (sendCommand quietEnv (invokeBridge exampleTimestamp) examplePlay
                   freshWorld) in
  fst (sendCommand quietEnv (invokeBridge exampleTimestamp) examplePlay freshWorld)
  = Return true
  /\ events w'
     = [Toast ToastInfo
          (lit "Command ready: " ++ description (formatCommand examplePlay))].
Proof.
  destruct (sendCommand_simulated quietEnv (invokeBridge exampleTimestamp)
              examplePlay freshWorld
              {| Client.success := true;
                 Client.command := formatCommand examplePlay;
                 Client.timestamp := exampleTimestamp;
                 Client.hex := hexDump (bytes (formatCommand examplePlay)) |}
              eq_refl eq_refl eq_refl eq_refl) as (H1 & H2 & _).
  split; [exact H1 | exact H2].
Defined.

Lemma sendCommand_connected_witness :
  let w' := snd (sendCommand quietEnv (invokeBridge exampleTimestamp) examplePlay
                   connectedWorld) in
  callsOf (events w')
  = callsOf (events connectedWorld)
      ++ [WriteBytes (WriterOf 0) (transmitted (bytes (formatCommand examplePlay)))]
  /\ fst (sendCommand quietEnv (invokeBridge exampleTimestamp) examplePlay connectedWorld)
     = Return true.
Proof.
  destruct (sendCommand_connected quietEnv (invokeBridge exampleTimestamp)
              examplePlay connectedWorld
              {| Client.success := true;
                 Client.command := formatCommand examplePlay;
                 Client.timestamp := exampleTimestamp;
                 Client.hex := hexDump (bytes (formatCommand examplePlay)) |}
              (WriterOf 0) eq_refl eq_refl eq_refl eq_refl eq_refl)
    as (H1 & H2 & _).
  split; [exact H1 | exact H2].
Defined.

(** ** From the page to the wire *)

Section OverTheBridge.

Lemma handler_post (now : jsstring) (c : ArduinoCommand) :
  handler now (post c) = amendedResponse now c.
Proof.
  unfold handler, amendedResponse, post. cbn [method json].
  change (str_eqb (lit "POST") (lit "OPTIONS")) with false. cbv iota.
  now rewrite !falsy_missingOrEmpty.
Qed.

(** The reply of the client when it talks to the handler. *)
Lemma invokeBridge_cases (now : jsstring) (c : ArduinoCommand) :
  invokeBridge now c
  = if missingOrEmpty (action c)
       || (strictEq (action c) (lit "play")
           && (missingOrEmpty (system c) || missingOrEmpty (soundCode c)
               || missingOrEmpty (location c)))
    then {| Client.data := None; Client.error := Some nonOkMessage |}
    else {| Client.data :=
              Some {| Client.success := true;
                      Client.command := formatCommand c;
                      Client.timestamp := now;
                      Client.hex := hexDump (bytes (formatCommand c)) |};
            Client.error := None |}.
Proof.
  unfold invokeBridge. rewrite handler_post. unfold amendedResponse.
  destruct (missingOrEmpty (action c)); [reflexivity|]. cbn [orb].
  destruct (strictEq (action c) (lit "play") && _); reflexivity.
Qed.

End OverTheBridge.

Section EndToEnd.

Variable env : Env.

(** The one write of an accepted command on a connected hook. *)
Lemma sendCommand_write (invoke : ArduinoCommand -> Client.InvokeResult)
    (c : ArduinoCommand) (w : World) (d : Client.ArduinoResponse) (x : Writer) :
  invoke c = {| Client.data := Some d; Client.error := None |} ->
  Client.success d = true ->
  isConnected (hook w) = true -> writerRef (hook w) = Some x ->
  let w' := snd (sendCommand env invoke c w) in
  let data := transmitted (bytes (Client.command d)) in
  callsOf (events w') = callsOf (events w) ++ [WriteBytes x data]
  /\ (fst (sendCommand env invoke c w) = Return true
      <-> failure env (events w) (WriteBytes x data) = None)
  /\ (fst (sendCommand env invoke c w) = Return false
      <-> failure env (events w) (WriteBytes x data) <> None).
Proof.
  intros Hi Hok Hc Hx.
  destruct w as [[s cn g st lg p r wr] ev dt].
  cbn [hook isConnected writerRef] in Hc, Hx. subst cn wr.
  intros w' data. subst w'.
  unfold sendCommand, sendBytes. cbv zeta. rewrite Hi. cbn [Client.error Client.data].
  rewrite Hok. hook_run. fold (transmitted (bytes (Client.command d))). fold data.
  destruct (failure env ev (WriteBytes x data)) as [e|];
    hook_run; rewrite !callsOf_app; cbn [callsOf flat_map app];
    rewrite ?app_nil_r; repeat split; intros; congruence.
Qed.

Lemma play_refused_cond (sys snd loc : jsstring) (vol : Z) :
  sys = [] \/ snd = [] \/ loc = [] ->
  let c := playCommand (Some sys) (Some snd) (Some loc) (Some vol) in
  missingOrEmpty (action c)
  || (strictEq (action c) (lit "play")
      && (missingOrEmpty (system c) || missingOrEmpty (soundCode c)
          || missingOrEmpty (location c))) = true.
Proof.
  intros H c. subst c. cbn [playCommand action system soundCode location].
  change (missingOrEmpty (Some (lit "play"))) with false.
  change (strictEq (Some (lit "play")) (lit "play")) with true.
  cbn [orb andb].
  destruct H as [-> | [-> | ->]]; cbn [missingOrEmpty orb].
  - reflexivity.
  - now rewrite orb_true_r.
  - now rewrite !orb_true_r.
Qed.

Lemma play_accepted_cond (sys snd loc : jsstring) (vol : Z) :
  sys <> [] -> snd <> [] -> loc <> [] ->
  let c := playCommand (Some sys) (Some snd) (Some loc) (Some vol) in
  missingOrEmpty (action c)
  || (strictEq (action c) (lit "play")
      && (missingOrEmpty (system c) || missingOrEmpty (soundCode c)
          || missingOrEmpty (location c))) = false.
Proof.
  intros H1 H2 H3 c. subst c. cbn [playCommand action system soundCode location].
  change (missingOrEmpty (Some (lit "play"))) with false.
  change (strictEq (Some (lit "play")) (lit "play")) with true.
  destruct sys, snd, loc; try congruence. reflexivity.
Qed.

(** X22.  [playSound] with an empty system, sound code or location
    never reaches the device, connected or not: the handler refuses the
    command, so [playSound] returns false, makes no call into the
    serial API, leaves the device status alone and logs the client's
    message for a refused request as a command error. *)
Theorem playSound_refused (now sys snd loc : jsstring) (vol : option Z) (w : World)
    (H : sys = [] \/ snd = [] \/ loc = []) :
  let w' := Datatypes.snd (playSound env (invokeBridge now) sys snd loc vol w) in
  fst (playSound env (invokeBridge now) sys snd loc vol w) = Return false
  /\ callsOf (events w') = callsOf (events w)
  /\ deviceStatus (hook w') = deviceStatus (hook w)
  /\ lastOption (logs (hook w'))
     = Some (logLine (toLocaleTimeString env (dateAt env (S (dates w))))
               (lit "Command error: " ++ nonOkMessage)).
Proof.
  intros w'. subst w'. unfold playSound.
  set (v := match vol with Some v => v | None => 5 end).
  change (mkCommand (Some (lit "play")) (Some sys) (Some snd) (Some loc) (Some v))
    with (playCommand (Some sys) (Some snd) (Some loc) (Some v)).
  pose proof (play_refused_cond sys snd loc v H) as Hcond. cbv zeta in Hcond.
  unfold sendCommand. cbv zeta. rewrite invokeBridge_cases, Hcond.
  cbn [Client.error Client.data]. hook_run.
  rewrite !callsOf_app. cbn [callsOf flat_map app]. rewrite !app_nil_r.
  repeat split. apply lastOption_logsAfter.
Qed.

(** X23.  [playSound] with a system, a sound code and a location that
    are not empty, on a connected hook that holds a writer, makes
    exactly one call: a write of the frame of the play command, reduced
    modulo 256, which is 0x02, the reduced characters of raw, 0x03 and
    the checksum.  A volume that is not given goes out as 5.  The
    result is true exactly when the write succeeds. *)
Theorem playSound_sent (now sys snd loc : jsstring) (vol : option Z) (w : World)
    (x : Writer)
    (Hsys : sys <> []) (Hsnd : snd <> []) (Hloc : loc <> [])
    (Hc : isConnected (hook w) = true) (Hx : writerRef (hook w) = Some x) :
  let c := playCommand (Some sys) (Some snd) (Some loc)
             (Some (match vol with Some v => v | None => 5 end)) in
  let w' := Datatypes.snd (playSound env (invokeBridge now) sys snd loc vol w) in
  let data := transmitted (bytes (formatCommand c)) in
  callsOf (events w') = callsOf (events w) ++ [WriteBytes x data]
  /\ data = [2] ++ transmitted (codeUnits (raw (formatCommand c)))
              ++ [3; checksum (formatCommand c)]
  /\ (fst (playSound env (invokeBridge now) sys snd loc vol w) = Return true
      <-> failure env (events w) (WriteBytes x data) = None).
Proof.
  intros c w' data. subst w'.
  assert (Hi : invokeBridge now c
               = {| Client.data :=
                      Some {| Client.success := true;
                              Client.command := formatCommand c;
                              Client.timestamp := now;
                              Client.hex := hexDump (bytes (formatCommand c)) |};
                    Client.error := None |}).
  { rewrite invokeBridge_cases.
    pose proof (play_accepted_cond sys snd loc
                  (match vol with Some v => v | None => 5 end) Hsys Hsnd Hloc) as Hcond.
    cbv zeta in Hcond. fold c in Hcond. now rewrite Hcond. }
  destruct (sendCommand_write (invokeBridge now) c w _ x Hi eq_refl Hc Hx)
    as (H1 & H2 & _).
  cbn [Client.command] in H1, H2.
  split; [exact H1|]. split; [apply transmitted_frame | exact H2].
Qed.

End EndToEnd.

Lemma playSound_refused_witness :
  let w' := snd (playSound quietEnv (invokeBridge exampleTimestamp)
                   (lit "lung") [] (lit "aortic") None connectedWorld) in
  fst (playSound quietEnv (invokeBridge exampleTimestamp)
         (lit "lung") [] (lit "aortic") None connectedWorld) = Return false
  /\ callsOf (events w') = callsOf (events connectedWorld).
Proof.
  destruct (playSound_refused quietEnv exampleTimestamp (lit "lung") [] (lit "aortic")
              None connectedWorld) as (H1 & H2 & _).
  - right. left. reflexivity.
  - split; [exact H1 | exact H2].
Defined.

Lemma playSound_sent_witness :
  let w' := snd (playSound quietEnv (invokeBridge exampleTimestamp)
                   (lit "lung") (lit "lung_normal") (lit "right-upper-anterior")
                   (Some 12) connectedWorld) in
  callsOf (events w')
  = callsOf (events connectedWorld)
      ++ [WriteBytes (WriterOf 0) (transmitted (bytes (formatCommand examplePlay)))].
Proof.
  exact (proj1 (playSound_sent quietEnv exampleTimestamp
                  (lit "lung") (lit "lung_normal") (lit "right-upper-anterior")
                  (Some 12) connectedWorld (WriterOf 0)
                  ltac:(discriminate) ltac:(discriminate) ltac:(discriminate)
                  eq_refl eq_refl)).
Defined.

Section FixedCommands.

Variable env : Env.

Lemma simple_accepted (now : jsstring) (c : ArduinoCommand) :
  missingOrEmpty (action c) = false ->
  strictEq (action c) (lit "play") = false ->
  invokeBridge now c
  = {| Client.data :=
         Some {| Client.success := true;
                 Client.command := formatCommand c;
                 Client.timestamp := now;
                 Client.hex := hexDump (bytes (formatCommand c)) |};
       Client.error := None |}.
Proof.
  intros H1 H2. rewrite invokeBridge_cases, H1, H2. reflexivity.
Qed.

Lemma volume_frame_bytes (v : Z) :
  transmitted (bytes (formatCommand (volumeCommand None None None (Some v))))
  = bytes (formatCommand (volumeCommand None None None (Some v))).
Proof.
  unfold transmitted.
  assert (H : Forall isByte (bytes (formatCommand (volumeCommand None None None (Some v))))).
  { apply bytes_fit_iff, raw_below. intros s [=]. }
  induction H as [|b l Hb Hl IH]; cbn [List.map]; [reflexivity|].
  unfold isByte in Hb. rewrite Z.mod_small by lia. now rewrite IH.
Qed.

(** X24.  The commands without parameters always pass the handler and,
    on a connected hook that holds a writer, each makes exactly one
    call: [stopSound] writes 02 53 03 53, [queryStatus] writes
    02 51 03 51, and [setVolume] writes the frame of the volume command
    unchanged, 0x02, V, colon, the digits of the clamped volume, 0x03
    and the checksum. *)
Theorem fixed_commands_sent (now : jsstring) (w : World) (x : Writer)
    (Hc : isConnected (hook w) = true) (Hx : writerRef (hook w) = Some x) :
  callsOf (events (snd (stopSound env (invokeBridge now) w)))
  = callsOf (events w) ++ [WriteBytes x [2; 83; 3; 83]]
  /\ callsOf (events (snd (queryStatus env (invokeBridge now) w)))
     = callsOf (events w) ++ [WriteBytes x [2; 81; 3; 81]]
  /\ forall v,
       let f := formatCommand (volumeCommand None None None (Some v)) in
       callsOf (events (snd (setVolume env (invokeBridge now) v w)))
       = callsOf (events w) ++ [WriteBytes x (bytes f)]
       /\ bytes f
          = [2; 86; 58]
              ++ codeUnits (numberToString (clampVolume (volumeOrDefault (Some v))))
              ++ [3; checksum f].
Proof.
  split; [|split].
  - pose proof (simple_accepted now (mkCommand (Some (lit "stop")) None None None None)
                  eq_refl eq_refl) as Hi.
    destruct (sendCommand_write env (invokeBridge now) _ w _ x Hi eq_refl Hc Hx)
      as (H & _).
    exact H.
  - pose proof (simple_accepted now (mkCommand (Some (lit "status")) None None None None)
                  eq_refl eq_refl) as Hi.
    destruct (sendCommand_write env (invokeBridge now) _ w _ x Hi eq_refl Hc Hx)
      as (H & _).
    exact H.
  - intros v f.
    pose proof (simple_accepted now (volumeCommand None None None (Some v))
                  eq_refl eq_refl) as Hi.
    destruct (sendCommand_write env (invokeBridge now) _ w _ x Hi eq_refl Hc Hx)
      as (H & _).
    cbn [Client.command] in H. rewrite volume_frame_bytes in H.
    split; [exact H|].
    unfold f. rewrite formatCommand_frame, raw_volume.
    unfold codeUnits. rewrite map_app. reflexivity.
Qed.

End FixedCommands.

Lemma fixed_commands_sent_witness :
  callsOf (events (snd (stopSound quietEnv (invokeBridge exampleTimestamp) connectedWorld)))
  = callsOf (events connectedWorld) ++ [WriteBytes (WriterOf 0) [2; 83; 3; 83]].
Proof.
  destruct (fixed_commands_sent quietEnv exampleTimestamp connectedWorld (WriterOf 0)
              eq_refl eq_refl) as (H & _).
  exact H.
Defined.

Section ZeroVolume.

Lemma invokeBridge_volume (now : jsstring) (a sys snd loc : option jsstring) :
  invokeBridge now (mkCommand a sys snd loc (Some 0))
  = invokeBridge now (mkCommand a sys snd loc (Some 5)).
Proof.
  rewrite !invokeBridge_cases. cbn [action system soundCode location].
  replace (formatCommand (mkCommand a sys snd loc (Some 0)))
    with (formatCommand (mkCommand a sys snd loc (Some 5))); reflexivity.
Qed.

(** X25.  Volume 0 cannot be sent from a page: through the handler,
    [playSound] with volume 0 does in every state exactly what it does
    with volume 5 and with no volume at all, down to the bytes written
    and the lines logged, and [setVolume 0] does exactly what
    [setVolume 5] does. *)
Theorem zero_volume_end_to_end (env : Env) (now sys snd loc : jsstring) (w : World) :
  playSound env (invokeBridge now) sys snd loc (Some 0) w
  = playSound env (invokeBridge now) sys snd loc (Some 5) w
  /\ playSound env (invokeBridge now) sys snd loc None w
     = playSound env (invokeBridge now) sys snd loc (Some 5) w
  /\ setVolume env (invokeBridge now) 0 w = setVolume env (invokeBridge now) 5 w.
Proof.
  split; [|split; [reflexivity|]].
  - unfold playSound, sendCommand. cbv zeta. cbn [action].
    now rewrite invokeBridge_volume.
  - unfold setVolume, sendCommand. cbv zeta. cbn [action].
    now rewrite invokeBridge_volume.
Qed.

End ZeroVolume.
